(** * ESM common definitions: fixed-width strings and reader contexts

    A shallow embedding of [components/esm/esmcommon.hpp]: the
    [FixedString<capacity>] buffer with its conversions, assignment and
    comparison operators, and the [ESM_Context] record, followed by the
    reader and overlay layers that the header supports. *)

From Stdlib Require Import NArith Lia.
From Stdlib.Strings Require Import Byte.
From Stdlib Require Import ZArith.
From stdpp Require Import base option list strings gmap.

Open Scope nat_scope.

(** ** Bytes and raw memory operations *)

(** [char] is one octet; the terminator ['\0'] is [x00]. *)
Abbreviation NUL := x00 (only parsing).

#[global] Instance byte_eq_decision : EqDecision byte := Byte.byte_eq_dec.

(** The test [c == '\0']. *)
Definition is_nul (c : byte) : bool := Byte.eqb c NUL.

(** [std::memset(dst, c, n)]: the first [n] bytes of [dst] become [c]. *)
Definition memset (dst : list byte) (c : byte) (n : nat) : list byte :=
  replicate n c ++ drop n dst.

(** [std::memcpy(dst, src, n)]: the first [n] bytes of [dst] are
    replaced by the first [n] bytes of [src]. *)
Definition memcpy (dst src : list byte) (n : nat) : list byte :=
  take n src ++ drop n dst.

(** The same three writes with every access checked against the
    bounds of the arrays: [None] as soon as a byte outside [dst] would
    be written or a byte outside [src] read. *)
Definition memset_checked (dst : list byte) (c : byte) (n : nat)
  : option (list byte) :=
  if decide (n ≤ length dst) then Some (memset dst c n) else None.

Definition memcpy_checked (dst src : list byte) (n : nat)
  : option (list byte) :=
  if decide (n ≤ length dst ∧ n ≤ length src)
  then Some (memcpy dst src n) else None.

Definition store_checked (dst : list byte) (i : nat) (c : byte)
  : option (list byte) :=
  if decide (i < length dst) then Some (<[i := c]> dst) else None.

(** [strnlen(s, maxlen)]: the number of bytes before the first zero
    byte, looking at no more than [maxlen] bytes. *)
Fixpoint strnlen (s : list byte) (maxlen : nat) {struct maxlen} : nat :=
  match maxlen, s with
  | S m, c :: s' => if is_nul c then 0 else S (strnlen s' m)
  | _, _ => 0
  end.

(** [strncmp(s1, s2, n)]: compares at most [n] characters as
    [unsigned char], stopping behind a zero byte; only the sign of the
    result is specified, so the result is a [comparison]. A read outside
    either array has no defined result ([None]). [i] is the index
    reached, [n] the number of characters still allowed. *)
Fixpoint strncmp_from (n i : nat) (s1 s2 : list byte) : option comparison :=
  match n with
  | 0 => Some Eq
  | S n' =>
      c1 ← s1 !! i;
      c2 ← s2 !! i;
      if negb (Byte.eqb c1 c2)
      then Some (N.compare (Byte.to_N c1) (Byte.to_N c2))
      else if is_nul c1 then Some Eq
      else strncmp_from n' (S i) s1 s2
  end.

Definition strncmp (s1 s2 : list byte) (n : nat) : option comparison :=
  strncmp_from n 0 s1 s2.

(** Byte order of the host: [std::memcpy] between a [std::uint32_t] and
    a [char[4]] moves the object representation, which is the
    little-endian or the big-endian digit sequence of the value. *)
Inductive ByteOrder : Set := LittleEndian | BigEndian.

(** Value of a base-256 digit sequence, least significant digit first. *)
Fixpoint le_value (bs : list byte) : N :=
  match bs with
  | [] => 0%N
  | b :: bs' => (Byte.to_N b + 256 * le_value bs')%N
  end.

(** The octet with value [n mod 256]. *)
Definition byte_of_N (n : N) : byte :=
  default NUL (Byte.of_N (n mod 256)%N).

(** The [k] least significant base-256 digits of [v], least significant
    first. *)
Fixpoint le_digits (k : nat) (v : N) : list byte :=
  match k with
  | 0 => []
  | S k' => byte_of_N v :: le_digits k' (v / 256)%N
  end.

Definition sizeof_uint32 : nat := 4.

Definition UINT32_MAX : N := 4294967295%N.

(** Object representation of a [std::uint32_t] on the given host. *)
Definition uint32_bytes (host : ByteOrder) (v : N) : list byte :=
  match host with
  | LittleEndian => le_digits sizeof_uint32 v
  | BigEndian => rev (le_digits sizeof_uint32 v)
  end.

(** The [std::uint32_t] whose object representation is [bs]. *)
Definition uint32_of_bytes (host : ByteOrder) (bs : list byte) : N :=
  match host with
  | LittleEndian => le_value bs
  | BigEndian => le_value (rev bs)
  end.

(** ** Record flags and format versions *)

Module ESM.

Definition VER_12 : N := 0x3f99999a%N.
Definition VER_13 : N := 0x3fa66666%N.

Definition FLAG_Persistent : N := 0x00000400%N.
Definition FLAG_Blocked : N := 0x00002000%N.

(** ** [FixedString<capacity>] *)

Section FixedString.

(** The template parameter; [static_assert(capacity > 0)]. *)
Variable capacity : nat.

(** [char mData[capacity]]: a buffer is well formed when it has
    exactly [capacity] bytes. *)
Definition wf_buffer (mData : list byte) : Prop := length mData = capacity.

Definition toStringView (mData : list byte) : list byte :=
  take (strnlen mData capacity) mData.

Definition toString (mData : list byte) : list byte :=
  toStringView mData.

(** [toInt]: [memcpy(&value, mData, capacity)] with
    [capacity == sizeof(std::uint32_t)]. *)
Definition toInt (host : ByteOrder) (mData : list byte) : N :=
  uint32_of_bytes host (take capacity mData).

Definition clear (mData : list byte) : list byte :=
  memset mData NUL capacity.

(** [assign(std::string_view value)]: [value] is the text the view
    designates, held in storage of its own. A view into [mData] itself
    is outside this definition: the bytes it designates change while
    [assign] runs (for capacity 4 the [memset] clears them before the
    [memcpy] reads them). *)
Definition assign (mData value : list byte) : list byte :=
  if decide (length value = 0) then clear mData
  else if decide (length value < capacity) then
    let d0 := if decide (capacity = sizeof_uint32)
              then memset mData NUL capacity else mData in
    let d1 := memcpy d0 value (length value) in
    if decide (capacity ≠ sizeof_uint32)
    then <[length value := NUL]> d1 else d1
  else
    let d1 := memcpy mData value capacity in
    if decide (capacity ≠ sizeof_uint32)
    then <[capacity - 1 := NUL]> d1 else d1.

(** [operator=(std::uint32_t)]: [memcpy(&mData, &value, capacity)]. *)
Definition assign_uint32 (host : ByteOrder) (mData : list byte) (value : N)
  : list byte :=
  memcpy mData (uint32_bytes host value) capacity.

(** [operator==(const FixedString&, const char* const&)]: [rhs] is the
    memory the pointer designates; a read outside it has no defined result
    ([None]). [n] counts the iterations that remain, [i] is the loop
    variable, so that [i + n = capacity] throughout. *)
Fixpoint eq_cstr_loop (n i : nat) (mData rhs : list byte) : option bool :=
  match n with
  | 0 => r ← rhs !! i; Some (is_nul r)
  | S n' =>
      l ← mData !! i;
      r ← rhs !! i;
      if negb (Byte.eqb l r) then Some false
      else if is_nul l then Some true
      else eq_cstr_loop n' (S i) mData rhs
  end.

Definition eq_cstr (mData rhs : list byte) : option bool :=
  eq_cstr_loop capacity 0 mData rhs.

(** [operator==(const FixedString&, const std::string&)] compares with
    [rhs.c_str()], the contents followed by a terminator. *)
Definition eq_string (mData rhs : list byte) : option bool :=
  eq_cstr mData (rhs ++ [NUL]).

(** [operator==(const FixedString<4>&, std::uint32_t)]. *)
Definition eq_uint32 (host : ByteOrder) (mData : list byte) (rhs : N) : bool :=
  N.eqb (toInt host mData) rhs.

(** [operator==(const FixedString&, const char (&)[rhsSize])]: [rhs]
    is the whole array, [rhsSize] its length; [&&] evaluates [strncmp]
    only when the two lengths agree. *)
Definition eq_array (mData rhs : list byte) : option bool :=
  if decide (strnlen rhs (length rhs) = strnlen mData capacity)
  then c ← strncmp mData rhs capacity;
       Some (if c is Eq then true else false)
  else Some false.

(** [operator!=]: the negation of the matching [operator==]. *)
Definition ne_cstr (mData rhs : list byte) : option bool :=
  negb <$> eq_cstr mData rhs.

Definition ne_string (mData rhs : list byte) : option bool :=
  negb <$> eq_string mData rhs.

Definition ne_array (mData rhs : list byte) : option bool :=
  negb <$> eq_array mData rhs.

Definition ne_uint32 (host : ByteOrder) (mData : list byte) (rhs : N) : bool :=
  negb (eq_uint32 host mData rhs).

(** [clear], [assign] and [operator=(std::uint32_t)] statement by
    statement, with every [memset], [memcpy] and single-byte store
    checked against the bounds of [mData] and of the text. *)
Definition clear_checked (mData : list byte) : option (list byte) :=
  memset_checked mData NUL capacity.

Definition assign_checked (mData value : list byte) : option (list byte) :=
  if decide (length value = 0) then clear_checked mData
  else if decide (length value < capacity) then
    d0 ← (if decide (capacity = sizeof_uint32)
          then memset_checked mData NUL capacity else Some mData);
    d1 ← memcpy_checked d0 value (length value);
    if decide (capacity ≠ sizeof_uint32)
    then store_checked d1 (length value) NUL else Some d1
  else
    d1 ← memcpy_checked mData value capacity;
    if decide (capacity ≠ sizeof_uint32)
    then store_checked d1 (capacity - 1) NUL else Some d1.

Definition assign_uint32_checked (host : ByteOrder) (mData : list byte)
    (value : N) : option (list byte) :=
  memcpy_checked mData (uint32_bytes host value) capacity.

End FixedString.

(** The text a null-terminated character string denotes: the bytes
    before its first zero byte. *)
Definition c_str_text (mem : list byte) : list byte :=
  take (strnlen mem (length mem)) mem.

(** ** [ESM_Context] *)

(** The file context an [ESMReader] saves and restores. [uint32_t] and
    [size_t] fields are naturals ([N]), [int] fields are integers, the
    two [NAME] fields are 4-byte [FixedString] buffers. *)
Record ESM_Context : Type := mkContext {
  filename : string;
  leftRec : N;
  leftSub : N;
  leftFile : N;
  recName : list byte;
  subName : list byte;
  index : Z;
  parentFileIndices : list Z;
  (* True if subName has been read but not used. *)
  subCached : bool;
  (* File position. Only used for stored contexts. *)
  filePos : N
}.

End ESM.

(** ** Vocabulary of the specification *)

(** The value of four bytes read with byte 0 least significant. *)
Definition little_endian_value (b0 b1 b2 b3 : byte) : N :=
  (Byte.to_N b0 + 256 * Byte.to_N b1 + 65536 * Byte.to_N b2
   + 16777216 * Byte.to_N b3)%N.

(** Every byte of the buffer from the logical length on is zero. *)
Definition zero_padded (capacity : nat) (mData : list byte) : Prop :=
  ∀ i, strnlen mData capacity ≤ i → i < capacity → mData !! i = Some NUL.

(** The number of text bytes a buffer can hold next to what [assign]
    appends: all four for a tag, one less than the capacity otherwise. *)
Definition text_limit (capacity : nat) : nat :=
  if decide (capacity = sizeof_uint32) then sizeof_uint32 else capacity - 1.

(** * The record stream reader *)

Module Reader.

Import ESM.

Inductive Error : Set := FormatError | UsageError | DependencyError.

Inductive Result (A : Type) : Type :=
  | Ok (a : A)
  | Fail (e : Error).

Arguments Ok {A} a.
Arguments Fail {A} e.

(** Modelled from the spec: the reader itself ([RecordStreamReader],
    [ESMReader] in the code base) is not among the sources; only the
    [ESM_Context] it keeps is. A reader is its live context, the bytes
    of the open file and the byte cursor into them. *)
Record RecordStreamReader : Type := mkReader {
  mCtx : ESM_Context;
  mBytes : list byte;
  mCursor : nat
}.

(** Modelled from the spec: reader operations thread the reader and
    fail with one of the three error kinds. *)
Definition M (A : Type) : Type :=
  ∀ r : RecordStreamReader, Result (A * RecordStreamReader).

Definition ret {A} (a : A) : M A := λ r, Ok (a, r).

Definition bind {A B} (m : M A) (k : A → M B) : M B :=
  λ r, match m r with
       | Ok (a, r') => k a r'
       | Fail e => Fail e
       end.

Definition fail {A} (e : Error) : M A := λ _, Fail e.

Notation "'do' x <- m ; k" := (bind m (λ x, k))
  (at level 10, x name, m at level 100, k at level 200).

Definition getCtx : M ESM_Context := λ r, Ok (mCtx r, r).

Definition setCtx (c : ESM_Context) : M unit :=
  λ r, Ok ((), mkReader c (mBytes r) (mCursor r)).

(** Bytes between the cursor and the end of the file. *)
Definition remaining (r : RecordStreamReader) : nat :=
  length (mBytes r) - mCursor r.

Definition getRemaining : M nat := λ r, Ok (remaining r, r).

(** Modelled from the spec: read exactly [n] bytes at the cursor;
    premature end of file is a [FormatError]. *)
Definition readBytes (n : nat) : M (list byte) :=
  λ r, if decide (n ≤ remaining r)
       then Ok (take n (drop (mCursor r) (mBytes r)),
                mkReader (mCtx r) (mBytes r) (mCursor r + n))
       else Fail FormatError.

(** Modelled from the spec: all multi-byte integers in a file are
    little-endian, here 4 bytes wide. *)
Definition readUint32 : M N :=
  do bs <- readBytes 4; ret (le_value bs).

Definition recordHeaderSize : N := 12.
Definition subrecordHeaderSize : N := 8.

Inductive State : Set := BetweenRecords | InRecord | InSubrecord.

(** Modelled from the spec: the three reader states, read off the
    context: [InSubrecord] while payload bytes of a subrecord are
    pending, [InRecord] while bytes of the record are pending, and
    [BetweenRecords] otherwise. *)
Definition state (c : ESM_Context) : State :=
  if decide (0 < leftSub c)%N then InSubrecord
  else if decide (0 < leftRec c)%N then InRecord
  else BetweenRecords.

(** Modelled from the spec: [open] creates the empty context for the
    file at position [idx] of the load order. *)
Definition open (path : string) (contents : list byte) (idx : Z)
    (parents : list Z) : RecordStreamReader :=
  mkReader
    (mkContext path 0 0 (N.of_nat (length contents))
       (replicate 4 NUL) (replicate 4 NUL) idx parents false 0)
    contents 0.

(** Modelled from the spec: [nextRecordHeader], valid only between
    records. At the end of the file it reports that no record is left;
    otherwise it reads the 4-byte tag, the 4-byte length and the 4-byte
    flag word, and fails with [FormatError] when the header is truncated
    or declares more payload than the file still holds. *)
Definition nextRecordHeader : M (option (list byte * N)) :=
  do c <- getCtx;
  match state c with
  | BetweenRecords =>
      do left <- getRemaining;
      if decide (left = 0) then ret None
      else
        do tag <- readBytes 4;
        do len <- readUint32;
        do flags <- readUint32;
        do left' <- getRemaining;
        if decide (N.of_nat left' < len)%N then fail FormatError
        else
          do _ <- setCtx
            (mkContext (filename c) len 0
               (leftFile c - (recordHeaderSize + len))
               tag (subName c) (index c) (parentFileIndices c)
               false (filePos c));
          ret (Some (tag, flags))
  | _ => fail UsageError
  end.

(** Modelled from the spec: [peekSubrecordTag] reads the tag of the
    next subrecord without committing to it: the tag is kept in
    [subName] and [subCached] is set; the byte counters stay as they
    are. A tag that is already cached is returned without any read. *)
Definition peekSubrecordTag : M (option (list byte)) :=
  do c <- getCtx;
  match state c with
  | InSubrecord => fail UsageError
  | _ =>
      if subCached c then ret (Some (subName c))
      else if decide (leftRec c = 0)%N then ret None
      else
        do tag <- readBytes 4;
        do _ <- setCtx
          (mkContext (filename c) (leftRec c) (leftSub c) (leftFile c)
             (recName c) tag (index c) (parentFileIndices c)
             true (filePos c));
        ret (Some tag)
  end.

(** Modelled from the spec: [nextSubrecordHeader], valid only in a
    record. With nothing left in the record it reports that there are
    no more subrecords. Otherwise it takes the tag, from the cache when
    [subCached] is set and from the file when not, reads the declared
    length, charges the header to [leftRec] and sets [leftSub]; a
    length that exceeds what is left of the record is a
    [FormatError]. *)
Definition nextSubrecordHeader : M (option (list byte)) :=
  do c <- getCtx;
  match state c with
  | InSubrecord => fail UsageError
  | _ =>
      if decide (leftRec c = 0)%N then ret None
      else
        do tag <- (if subCached c then ret (subName c) else readBytes 4);
        do len <- readUint32;
        if decide (leftRec c < subrecordHeaderSize)%N then fail FormatError
        else if decide (leftRec c - subrecordHeaderSize < len)%N
        then fail FormatError
        else
          do _ <- setCtx
            (mkContext (filename c)
               (leftRec c - subrecordHeaderSize) len (leftFile c)
               (recName c) tag (index c) (parentFileIndices c)
               false (filePos c));
          ret (Some tag)
  end.

(** Modelled from the spec: [readField(width)], valid only in a
    subrecord; a field that overruns its subrecord is a
    [FormatError]. *)
Definition readField (width : nat) : M (list byte) :=
  do c <- getCtx;
  match state c with
  | InSubrecord =>
      if decide (leftSub c < N.of_nat width)%N then fail FormatError
      else
        do bs <- readBytes width;
        do _ <- setCtx
          (mkContext (filename c)
             (leftRec c - N.of_nat width) (leftSub c - N.of_nat width)
             (leftFile c) (recName c) (subName c) (index c)
             (parentFileIndices c) (subCached c) (filePos c));
        ret bs
  | _ => fail UsageError
  end.

(** Modelled from the spec: [skipSubrecord] discards what is left of
    the current subrecord. *)
Definition skipSubrecord : M unit :=
  do c <- getCtx;
  do _ <- readBytes (N.to_nat (leftSub c));
  setCtx
    (mkContext (filename c) (leftRec c - leftSub c) 0 (leftFile c)
       (recName c) (subName c) (index c) (parentFileIndices c)
       (subCached c) (filePos c)).

(** Modelled from the spec: [saveContext] copies the live context out,
    with the current byte offset in [filePos]. *)
Definition saveContext (r : RecordStreamReader) : ESM_Context :=
  let c := mCtx r in
  mkContext (filename c) (leftRec c) (leftSub c) (leftFile c)
    (recName c) (subName c) (index c) (parentFileIndices c)
    (subCached c) (N.of_nat (mCursor r)).

(** Modelled from the spec: [restoreContext] overwrites the live
    context with the saved one and moves the byte cursor to the saved
    offset; a context of another file is a [UsageError]. *)
Definition restoreContext (saved : ESM_Context) : M unit :=
  λ r, if decide (filename saved = filename (mCtx r))
       then Ok ((), mkReader saved (mBytes r) (N.to_nat (filePos saved)))
       else Fail UsageError.

Definition currentFileIndex (r : RecordStreamReader) : Z := index (mCtx r).

(** The operations a caller may issue between a save and a restore. *)
Inductive Op : Type :=
  | OpNextRecordHeader
  | OpNextSubrecordHeader
  | OpPeekSubrecordTag
  | OpReadField (width : nat)
  | OpSkipSubrecord
  | OpRestoreContext (saved : ESM_Context).

(** The reader an operation leaves behind, when it succeeds. *)
Definition exec (op : Op) (r : RecordStreamReader) : Result RecordStreamReader :=
  let after {A} (m : M A) :=
    match m r with Ok (_, r') => Ok r' | Fail e => Fail e end in
  match op with
  | OpNextRecordHeader => after nextRecordHeader
  | OpNextSubrecordHeader => after nextSubrecordHeader
  | OpPeekSubrecordTag => after peekSubrecordTag
  | OpReadField width => after (readField width)
  | OpSkipSubrecord => after skipSubrecord
  | OpRestoreContext saved => after (restoreContext saved)
  end.

(** [reaches r r']: some sequence of successful operations leads from
    [r] to [r']. *)
Inductive reaches (r : RecordStreamReader) : RecordStreamReader → Prop :=
  | reaches_refl : reaches r r
  | reaches_step op r1 r2 :
      reaches r r1 → exec op r1 = Ok r2 → reaches r r2.

(** Run a sequence of operations, stopping at the first failure. *)
Fixpoint run_ops (ops : list Op) (r : RecordStreamReader)
  : Result RecordStreamReader :=
  match ops with
  | [] => Ok r
  | op :: ops' =>
      match exec op r with
      | Ok r' => run_ops ops' r'
      | Fail e => Fail e
      end
  end.

(** A small file: one [NPC_] record with flag word [0x2000] holding a
    [NAME] subrecord of 3 bytes and a [DATA] subrecord of 2 bytes. *)
Definition sample_file : list byte :=
  [x4e; x50; x43; x5f; x15; x00; x00; x00; x00; x20; x00; x00;
   x4e; x41; x4d; x45; x03; x00; x00; x00; x61; x62; x63;
   x44; x41; x54; x41; x02; x00; x00; x00; x01; x02].

(** The reader an operation sequence leaves behind; a failed run
    leaves the reader where it started. *)
Definition after_ops (ops : list Op) (r : RecordStreamReader)
  : RecordStreamReader :=
  match run_ops ops r with
  | Ok r' => r'
  | Fail _ => r
  end.

(** The reader on the sample file right after its record header. *)
Definition sample_in_record : RecordStreamReader :=
  Eval vm_compute in
    after_ops [OpNextRecordHeader] (open "base.dat" sample_file 0 []).

(** The reader on the sample file inside its [NAME] subrecord. *)
Definition sample_in_subrecord : RecordStreamReader :=
  Eval vm_compute in
    after_ops [OpNextRecordHeader; OpNextSubrecordHeader]
      (open "base.dat" sample_file 0 []).

(** The same reader once the whole record has been consumed. *)
Definition sample_after_record : RecordStreamReader :=
  Eval vm_compute in
    after_ops [OpReadField 3; OpPeekSubrecordTag; OpNextSubrecordHeader;
               OpSkipSubrecord] sample_in_subrecord.

(** What a caller can tell about a reader: the last record and
    subrecord tags, the remaining byte counts, the cached-tag mark, the
    state, the byte offset and the bytes still to be read. *)
Record Observation : Type := mkObservation {
  oRecName : list byte;
  oSubName : list byte;
  oLeftRec : N;
  oLeftSub : N;
  oLeftFile : N;
  oSubCached : bool;
  oState : State;
  oOffset : nat;
  oNextBytes : list byte
}.

Definition observe (r : RecordStreamReader) : Observation :=
  let c := mCtx r in
  mkObservation (recName c) (subName c) (leftRec c) (leftSub c)
    (leftFile c) (subCached c) (state c) (mCursor r)
    (drop (mCursor r) (mBytes r)).

(** A well-formed subrecord header with tag [tag] and declared length
    [len] lies at the cursor and fits in what is left of the record. *)
Definition subrecord_ahead (r : RecordStreamReader) (tag : list byte)
    (len : N) : Prop :=
  take 4 (drop (mCursor r) (mBytes r)) = tag
  ∧ le_value (take 4 (drop (mCursor r + 4) (mBytes r))) = len
  ∧ 8 ≤ remaining r
  ∧ (subrecordHeaderSize ≤ leftRec (mCtx r))%N
  ∧ (len ≤ leftRec (mCtx r) - subrecordHeaderSize)%N.

End Reader.

(** * The multi-file overlay *)

Module Overlay.

(** Modelled from the spec: [MultiFileOverlay] is not among the
    sources; only the [FLAG_Blocked] bit it tests is. A decoded record
    carries its key (the type tag as a 32-bit value and the identifier
    the record type defines), its flag word and its payload. *)
Record LogicalRecord : Type := mkRecord {
  recKey : N * string;
  recFlags : N;
  recBody : list byte
}.

(** Modelled from the spec: the entry deletes its key when its flag
    word has the [FLAG_Blocked] bit, [flags & FLAG_Blocked]. *)
Definition isBlocked (rec : LogicalRecord) : bool :=
  negb (N.land (recFlags rec) ESM.FLAG_Blocked =? 0)%N.

(** Modelled from the spec: what the overlay hands to its caller, a
    record with the index of the file it comes from, or the notice that
    a key was removed by the file of that index. *)
Inductive Yield : Type :=
  | Visible (fileIndex : nat) (rec : LogicalRecord)
  | Tombstone (fileIndex : nat) (key : N * string).

Definition yieldKey (y : Yield) : N * string :=
  match y with
  | Visible _ rec => recKey rec
  | Tombstone _ key => key
  end.

(** The records of one file, each with its origin: file index and
    position in the file. *)
Definition tagged (fileIndex : nat) (recs : list LogicalRecord)
  : list (nat * nat * LogicalRecord) :=
  imap (λ pos rec, (fileIndex, pos, rec)) recs.

(** Modelled from the spec: the records of all files in load order,
    each file in its own sequence. *)
Fixpoint scan_from (fileIndex : nat) (files : list (list LogicalRecord))
  : list (nat * nat * LogicalRecord) :=
  match files with
  | [] => []
  | recs :: files' => tagged fileIndex recs ++ scan_from (S fileIndex) files'
  end.

Definition scan (files : list (list LogicalRecord))
  : list (nat * nat * LogicalRecord) :=
  scan_from 0 files.

(** Modelled from the spec: the first pass records, for every key, the
    winning file index and position; a later entry replaces an earlier
    one. *)
Definition claim (owners : gmap (N * string) (nat * nat))
    (e : nat * nat * LogicalRecord) : gmap (N * string) (nat * nat) :=
  <[recKey e.2 := e.1]> owners.

Definition resolve (files : list (list LogicalRecord))
  : gmap (N * string) (nat * nat) :=
  foldl claim ∅ (scan files).

(** Modelled from the spec: an overlay is the ownership map, built once
    at construction, and the records still to be streamed. *)
Record MultiFileOverlay : Type := mkOverlay {
  ownership : gmap (N * string) (nat * nat);
  pending : list (nat * nat * LogicalRecord)
}.

Definition make (files : list (list LogicalRecord)) : MultiFileOverlay :=
  mkOverlay (resolve files) (scan files).

(** Modelled from the spec: a winning entry is surfaced as a tombstone
    when it carries the [Blocked] flag and as a record otherwise, with
    its true file index. *)
Definition surface (e : nat * nat * LogicalRecord) : Yield :=
  if isBlocked e.2 then Tombstone e.1.1 (recKey e.2) else Visible e.1.1 e.2.

(** Modelled from the spec: the second pass streams an entry only when
    its file and position still own its key. *)
Definition select (owners : gmap (N * string) (nat * nat))
    (e : nat * nat * LogicalRecord) : option Yield :=
  if decide (owners !! recKey e.2 = Some e.1) then Some (surface e) else None.

Fixpoint next_owned (owners : gmap (N * string) (nat * nat))
    (todo : list (nat * nat * LogicalRecord))
  : option (Yield * list (nat * nat * LogicalRecord)) :=
  match todo with
  | [] => None
  | e :: todo' =>
      match select owners e with
      | Some y => Some (y, todo')
      | None => next_owned owners todo'
      end
  end.

(** Modelled from the spec: [nextLogicalRecord] pulls the next entry
    that no later file overrides; [None] at the end of the stream. *)
Definition nextLogicalRecord (ov : MultiFileOverlay)
  : option Yield * MultiFileOverlay :=
  match next_owned (ownership ov) (pending ov) with
  | Some (y, todo) => (Some y, mkOverlay (ownership ov) todo)
  | None => (None, mkOverlay (ownership ov) [])
  end.

(** Pull until the stream ends, at most [fuel] times. *)
Fixpoint drain (fuel : nat) (ov : MultiFileOverlay) : list Yield :=
  match fuel with
  | 0 => []
  | S fuel' =>
      match nextLogicalRecord ov with
      | (Some y, ov') => y :: drain fuel' ov'
      | (None, _) => []
      end
  end.

(** Everything the overlay over [files] yields; one pull more than there
    are records always reaches the end. *)
Definition logicalStream (files : list (list LogicalRecord)) : list Yield :=
  drain (S (length (scan files))) (make files).

(** What the stream says about the key [key]. *)
Definition about (key : N * string) (ys : list Yield) : list Yield :=
  filter (λ y, yieldKey y = key) ys.

(** The scenario of the specification: [NPC_] / ["guard01"]. *)
Definition guard01 : N * string := (0x5f43504e%N, "guard01").

Definition base_dat : list LogicalRecord :=
  [mkRecord (0x5f43504e%N, "merchant") 0 [x01];
   mkRecord guard01 0 [x02]].

Definition patch_dat : list LogicalRecord :=
  [mkRecord guard01 ESM.FLAG_Blocked []].

Definition patch_override_dat : list LogicalRecord :=
  [mkRecord guard01 ESM.FLAG_Persistent [x03]].

End Overlay.


(* ================================================================== *)
(** * Properties of the raw memory operations *)

Lemma is_nul_true (c : byte) : is_nul c = true ↔ c = NUL.
Proof.
  unfold is_nul. split.
  - apply Byte.byte_dec_bl.
  - apply Byte.byte_dec_lb.
Qed.

Lemma is_nul_false (c : byte) : is_nul c = false ↔ c ≠ NUL.
Proof.
  rewrite <- is_nul_true. destruct (is_nul c); split; congruence.
Qed.

Lemma byte_eqb_true (a b : byte) : Byte.eqb a b = true ↔ a = b.
Proof. split; [apply Byte.byte_dec_bl | apply Byte.byte_dec_lb]. Qed.

Lemma length_memset dst c n :
  n ≤ length dst → length (memset dst c n) = length dst.
Proof.
  intros Hn. unfold memset.
  rewrite length_app, length_replicate, length_drop. lia.
Qed.

Lemma length_memcpy dst src n :
  n ≤ length src → n ≤ length dst → length (memcpy dst src n) = length dst.
Proof.
  intros Hs Hd. unfold memcpy.
  rewrite length_app, length_take, length_drop. lia.
Qed.

Lemma memset_all dst c : memset dst c (length dst) = replicate (length dst) c.
Proof. unfold memset. by rewrite drop_all, app_nil_r. Qed.

Lemma lookup_memcpy_lt dst src n i :
  n ≤ length src → i < n → memcpy dst src n !! i = src !! i.
Proof.
  intros Hn Hi. unfold memcpy.
  rewrite lookup_app_l by (rewrite length_take; lia).
  by rewrite lookup_take_lt.
Qed.

Lemma lookup_memcpy_ge dst src n i :
  n ≤ length src → n ≤ i → memcpy dst src n !! i = dst !! i.
Proof.
  intros Hn Hi. unfold memcpy.
  rewrite lookup_app_r by (rewrite length_take; lia).
  rewrite length_take, lookup_drop. f_equal. lia.
Qed.

(** ** [strnlen] finds the first zero byte *)

Lemma strnlen_le_max s n : strnlen s n ≤ n.
Proof.
  revert s; induction n as [|n IH]; intros [|c s]; simpl; try lia.
  destruct (is_nul c); [lia | specialize (IH s); lia].
Qed.

Lemma strnlen_le_length s n : strnlen s n ≤ length s.
Proof.
  revert s; induction n as [|n IH]; intros [|c s]; simpl; try lia.
  destruct (is_nul c); [lia | specialize (IH s); lia].
Qed.

Lemma strnlen_prefix_nonzero s n : NUL ∉ take (strnlen s n) s.
Proof.
  revert s; induction n as [|n IH]; intros [|c s]; simpl;
    try apply not_elem_of_nil.
  destruct (is_nul c) eqn:Hc; simpl; [apply not_elem_of_nil|].
  apply is_nul_false in Hc. rewrite elem_of_cons.
  intros [Heq | Hin]; [congruence | by apply (IH s)].
Qed.

Lemma strnlen_stops_at_nul s n :
  strnlen s n < n → strnlen s n < length s → s !! strnlen s n = Some NUL.
Proof.
  revert s; induction n as [|n IH]; intros [|c s]; simpl; try lia.
  destruct (is_nul c) eqn:Hc; simpl.
  - intros _ _. apply is_nul_true in Hc. by subst.
  - intros H1 H2. apply IH; lia.
Qed.

Lemma strnlen_no_nul s n :
  n ≤ length s → NUL ∉ take n s → strnlen s n = n.
Proof.
  revert s; induction n as [|n IH]; intros [|c s]; simpl; try lia.
  intros Hlen Hnot. rewrite not_elem_of_cons in Hnot.
  destruct Hnot as [Hc Hrest].
  destruct (is_nul c) eqn:E.
  - apply is_nul_true in E. congruence.
  - f_equal. apply IH; [lia | done].
Qed.

(** The first zero byte at index [k] fixes the result. *)
Lemma strnlen_first_nul s n k :
  k < n → s !! k = Some NUL → NUL ∉ take k s → strnlen s n = k.
Proof.
  revert s k; induction n as [|n IH]; intros [|c s] [|k]; simpl; try lia;
    try discriminate.
  - intros _ [= ->] _. reflexivity.
  - intros Hk Hlk Hnot. rewrite not_elem_of_cons in Hnot.
    destruct Hnot as [Hc Hrest].
    destruct (is_nul c) eqn:E.
    + apply is_nul_true in E. congruence.
    + f_equal. apply IH; [lia | done | done].
Qed.

(** ** Base-256 digits *)

Lemma byte_of_N_value n : Byte.to_N (byte_of_N n) = (n mod 256)%N.
Proof.
  unfold byte_of_N.
  destruct (Byte.of_N (n mod 256)) as [b|] eqn:E; simpl.
  - by apply Byte.to_of_N.
  - apply Byte.of_N_None_iff in E.
    pose proof (N.mod_upper_bound n 256). lia.
Qed.

Lemma le_value_digits k v : le_value (le_digits k v) = (v mod 256 ^ N.of_nat k)%N.
Proof.
  revert v; induction k as [|k IH]; intros v.
  - simpl. by rewrite N.mod_1_r.
  - cbn [le_digits le_value]. rewrite IH, byte_of_N_value.
    rewrite Nat2N.inj_succ, N.pow_succ_r'.
    rewrite N.Div0.mod_mul_r. lia.
Qed.

Lemma length_le_digits k v : length (le_digits k v) = k.
Proof. revert v; induction k; intros; simpl; auto. Qed.

Lemma length_uint32_bytes host v : length (uint32_bytes host v) = sizeof_uint32.
Proof.
  destruct host; unfold uint32_bytes;
    rewrite ?length_rev; apply length_le_digits.
Qed.

Lemma uint32_of_bytes_roundtrip host v :
  uint32_of_bytes host (uint32_bytes host v) = (v mod 2 ^ 32)%N.
Proof.
  destruct host; unfold uint32_of_bytes, uint32_bytes;
    rewrite ?rev_involutive, le_value_digits; reflexivity.
Qed.

(* ================================================================== *)
(** * [FixedString]: conversions to text *)

(** C8: for a buffer of [capacity] bytes, [toStringView] and [toString]
    return exactly the bytes before the first zero byte: the result is a
    prefix of the buffer, holds no zero byte, and is followed by a zero
    byte whenever it is shorter than the buffer; a buffer without zero
    byte is returned whole, so the text never exceeds [capacity]
    bytes. *)
Theorem toStringView_upto_first_nul (capacity : nat) (mData : list byte) :
  ESM.wf_buffer capacity mData →
  let text := ESM.toStringView capacity mData in
  ESM.toString capacity mData = text
  ∧ (text `prefix_of` mData)
  ∧ (NUL ∉ text)
  ∧ (length text < capacity → mData !! length text = Some NUL)
  ∧ (NUL ∉ mData → text = mData)
  ∧ length text ≤ capacity.
Proof.
  intros Hwf. red in Hwf. cbv zeta.
  set (text := ESM.toStringView capacity mData).
  assert (Hlen : length text = strnlen mData capacity).
  { unfold text, ESM.toStringView. rewrite length_take.
    pose proof (strnlen_le_length mData capacity). lia. }
  split; [reflexivity|].
  split; [apply prefix_take|].
  split; [apply strnlen_prefix_nonzero|].
  split; [|split].
  - rewrite Hlen. intros Hlt. apply strnlen_stops_at_nul; lia.
  - intros Hnot. unfold text, ESM.toStringView.
    rewrite strnlen_no_nul; [|lia|].
    + apply take_ge. lia.
    + rewrite take_ge by lia. exact Hnot.
  - rewrite Hlen. apply strnlen_le_max.
Qed.

Lemma toStringView_upto_first_nul_witness :
  ESM.toStringView 4 [x41; x42; x00; x43] `prefix_of` [x41; x42; x00; x43].
Proof.
  apply (toStringView_upto_first_nul 4 [x41; x42; x00; x43]).
  reflexivity.
Defined.

(* ================================================================== *)
(** * [FixedString]: assignment *)

Lemma assign_length (capacity : nat) (mData value : list byte) :
  ESM.wf_buffer capacity mData →
  ESM.wf_buffer capacity (ESM.assign capacity mData value).
Proof.
  unfold ESM.wf_buffer, ESM.assign, ESM.clear. intros Hwf.
  repeat case_decide; rewrite ?length_insert, ?length_memcpy, ?length_memset;
    rewrite ?length_memset; lia.
Qed.

Lemma toInt_zero (host : ByteOrder) :
  ESM.toInt sizeof_uint32 host (replicate sizeof_uint32 NUL) = 0%N.
Proof. destruct host; reflexivity. Qed.

(** C9: assigning the empty string zeroes the whole buffer, exactly as
    [clear] does; the text read back is empty and, for capacity 4, the
    tag read back is 0 on either byte order. *)
Theorem assign_empty_clears (capacity : nat) (mData : list byte) :
  ESM.wf_buffer capacity mData →
  ESM.assign capacity mData [] = ESM.clear capacity mData
  ∧ ESM.assign capacity mData [] = replicate capacity NUL
  ∧ ESM.toStringView capacity (ESM.assign capacity mData []) = []
  ∧ (capacity = sizeof_uint32 →
     ∀ host, ESM.toInt capacity host (ESM.assign capacity mData []) = 0%N).
Proof.
  intros Hwf. red in Hwf.
  assert (Hclr : ESM.assign capacity mData [] = replicate capacity NUL).
  { unfold ESM.assign, ESM.clear. simpl.
    rewrite <- Hwf. apply memset_all. }
  split; [reflexivity|]. split; [exact Hclr|]. split.
  - rewrite Hclr. unfold ESM.toStringView.
    destruct capacity; reflexivity.
  - intros -> host. rewrite Hclr. apply toInt_zero.
Qed.

Lemma assign_empty_clears_witness :
  ESM.assign 4 [x54; x45; x53; x33] [] = replicate 4 NUL.
Proof.
  apply (assign_empty_clears 4 [x54; x45; x53; x33]).
  reflexivity.
Defined.

(** The terminator that [assign] writes for capacities other than 4. *)
Lemma assign_terminator (capacity : nat) (mData value : list byte) :
  ESM.wf_buffer capacity mData → 0 < capacity → capacity ≠ sizeof_uint32 →
  ESM.assign capacity mData value !! (length value `min` (capacity - 1))
    = Some NUL.
Proof.
  unfold ESM.wf_buffer, ESM.assign, ESM.clear. intros Hwf Hpos Hne.
  repeat case_decide; try lia.
  - rewrite <- Hwf, memset_all.
    apply lookup_replicate_2. lia.
  - replace (length value `min` (capacity - 1)) with (length value) by lia.
    apply list_lookup_insert_eq. rewrite length_memcpy; lia.
  - replace (length value `min` (capacity - 1)) with (capacity - 1) by lia.
    apply list_lookup_insert_eq. rewrite length_memcpy; lia.
Qed.

(** Without a zero byte before position [k], [strnlen] stops at a zero
    byte found there or later. *)
Lemma strnlen_le_nul s n k :
  s !! k = Some NUL → strnlen s n ≤ k.
Proof.
  revert s k; induction n as [|n IH]; intros [|c s] [|k]; simpl;
    try lia; try discriminate.
  - intros [= ->]. reflexivity.
  - intros Hk. destruct (is_nul c); [lia|].
    specialize (IH s k Hk). lia.
Qed.

(** C10: for a capacity other than 4, [assign] always leaves a zero
    byte in the buffer, at the end of a short input or at index
    [capacity - 1] of a truncated one, so the text read back has at most
    [capacity - 1] bytes; for capacity 4, an input of 4 or more bytes
    fills the buffer with its first 4 bytes and no terminator is
    added. *)
Theorem assign_null_terminated (capacity : nat) (mData value : list byte) :
  ESM.wf_buffer capacity mData → 0 < capacity →
  let buf := ESM.assign capacity mData value in
  (capacity ≠ sizeof_uint32 →
     buf !! (length value `min` (capacity - 1)) = Some NUL
     ∧ NUL ∈ buf
     ∧ length (ESM.toStringView capacity buf) ≤ capacity - 1)
  ∧ (capacity = sizeof_uint32 → sizeof_uint32 ≤ length value →
     buf = take sizeof_uint32 value
     ∧ (NUL ∉ take sizeof_uint32 value →
        (NUL ∉ buf) ∧ ESM.toStringView capacity buf = buf)).
Proof.
  intros Hwf Hpos. cbv zeta. split.
  - intros Hne.
    pose proof (assign_terminator capacity mData value Hwf Hpos Hne) as Ht.
    split; [exact Ht|]. split.
    + eapply list_elem_of_lookup_2; eauto.
    + unfold ESM.toStringView. rewrite length_take.
      pose proof (strnlen_le_nul _ capacity _ Ht). lia.
  - intros -> Hlen. red in Hwf.
    assert (Hbuf : ESM.assign sizeof_uint32 mData value
                   = take sizeof_uint32 value).
    { unfold ESM.assign, ESM.clear, sizeof_uint32 in *.
      repeat case_decide; try lia.
      unfold memcpy. rewrite drop_ge by lia. apply app_nil_r. }
    split; [exact Hbuf|]. rewrite Hbuf. intros Hnot. split; [exact Hnot|].
    unfold ESM.toStringView.
    rewrite strnlen_no_nul.
    + apply take_ge. rewrite length_take. lia.
    + rewrite length_take. lia.
    + rewrite take_take. replace (sizeof_uint32 `min` sizeof_uint32)
        with sizeof_uint32 by lia. exact Hnot.
Qed.

Lemma assign_null_terminated_witness :
  ESM.assign 8 (replicate 8 xff) [x61; x62; x63; x64; x65; x66; x67; x68; x69]
    !! 7 = Some NUL.
Proof.
  apply (assign_null_terminated 8 (replicate 8 xff)
           [x61; x62; x63; x64; x65; x66; x67; x68; x69]).
  - reflexivity.
  - lia.
  - unfold sizeof_uint32; lia.
Defined.

(* ================================================================== *)
(** * [FixedString<4>]: the buffer as a 32-bit tag *)

(** C3: storing a 32-bit value with [operator=(std::uint32_t)] and
    reading it back with [toInt] returns the value, whatever the buffer
    held before and on either byte order. *)
Theorem assign_uint32_toInt_roundtrip
    (host : ByteOrder) (mData : list byte) (tag : N) :
  ESM.wf_buffer sizeof_uint32 mData → (tag ≤ UINT32_MAX)%N →
  ESM.toInt sizeof_uint32 host
    (ESM.assign_uint32 sizeof_uint32 host mData tag) = tag.
Proof.
  intros Hwf Htag. red in Hwf.
  unfold ESM.toInt, ESM.assign_uint32, memcpy.
  rewrite (take_ge (uint32_bytes host tag))
    by (rewrite length_uint32_bytes; lia).
  rewrite take_app_length'
    by (rewrite length_uint32_bytes; reflexivity).
  rewrite uint32_of_bytes_roundtrip.
  apply N.mod_small. unfold UINT32_MAX in Htag. lia.
Qed.

Lemma assign_uint32_toInt_roundtrip_witness :
  ESM.toInt sizeof_uint32 LittleEndian
    (ESM.assign_uint32 sizeof_uint32 LittleEndian
       [x00; x00; x00; x00] 0x5f43504e%N) = 0x5f43504e%N.
Proof.
  apply (assign_uint32_toInt_roundtrip LittleEndian
           [x00; x00; x00; x00] 0x5f43504e%N).
  - reflexivity.
  - unfold UINT32_MAX. lia.
Defined.

(** C5, as the code has it: on a little-endian host [toInt] returns
    [b0 + 256*b1 + 65536*b2 + 16777216*b3]; the same [memcpy] on a
    big-endian host returns the value with byte 3 least significant. *)
Theorem toInt_host_byte_order (b0 b1 b2 b3 : byte) :
  ESM.toInt sizeof_uint32 LittleEndian [b0; b1; b2; b3]
    = little_endian_value b0 b1 b2 b3
  ∧ ESM.toInt sizeof_uint32 BigEndian [b0; b1; b2; b3]
    = little_endian_value b3 b2 b1 b0.
Proof.
  unfold ESM.toInt, little_endian_value. simpl. lia.
Qed.

(** C5, counterexample on a big-endian host: the buffer [01 00 00 00]
    reads as 16777216 there, not as 1. *)
Lemma toInt_big_endian_host_differs :
  ESM.toInt sizeof_uint32 BigEndian [x01; x00; x00; x00] = 16777216%N
  ∧ little_endian_value x01 x00 x00 x00 = 1%N
  ∧ ¬ (∀ host b0 b1 b2 b3,
         ESM.toInt sizeof_uint32 host [b0; b1; b2; b3]
         = little_endian_value b0 b1 b2 b3).
Proof.
  split; [reflexivity|]. split; [reflexivity|].
  intros H. specialize (H BigEndian x01 x00 x00 x00). discriminate H.
Qed.

(* ================================================================== *)
(** * [FixedString]: what [assign] leaves behind the text *)

Lemma strnlen_ge_nonzero_prefix s n k :
  k ≤ n → (∀ j, j < k → ∃ c, s !! j = Some c ∧ c ≠ NUL) → k ≤ strnlen s n.
Proof.
  revert s k; induction n as [|n IH]; intros s k Hk Hpre.
  - lia.
  - destruct k as [|k]; [lia|].
    destruct (Hpre 0 ltac:(lia)) as (c & Hc & Hnz).
    destruct s as [|c' s]; [discriminate|]. simpl in Hc. injection Hc as ->.
    simpl. apply is_nul_false in Hnz. rewrite Hnz.
    apply le_n_S, IH; [lia|].
    intros j Hj. apply (Hpre (S j)). lia.
Qed.

Lemma assign_uint32_capacity_tail (mData value : list byte) (i : nat) :
  ESM.wf_buffer sizeof_uint32 mData →
  length value ≤ i → i < sizeof_uint32 →
  ESM.assign sizeof_uint32 mData value !! i = Some NUL.
Proof.
  unfold ESM.wf_buffer, ESM.assign, ESM.clear. intros Hwf Hle Hlt.
  repeat case_decide; try lia; try congruence.
  - rewrite <- Hwf, memset_all. apply lookup_replicate_2. lia.
  - rewrite lookup_memcpy_ge by lia.
    rewrite <- Hwf, memset_all. apply lookup_replicate_2. lia.
Qed.

Lemma assign_prefix (capacity : nat) (mData value : list byte) (j : nat) :
  ESM.wf_buffer capacity mData → capacity = sizeof_uint32 →
  j < length value → j < capacity →
  ESM.assign capacity mData value !! j = value !! j.
Proof.
  unfold ESM.wf_buffer, ESM.assign, ESM.clear. intros Hwf Hcap Hj Hjc.
  repeat case_decide; try lia; try congruence.
  - apply lookup_memcpy_lt; lia.
  - apply lookup_memcpy_lt; lia.
Qed.

(** C1, as the code has it: with capacity 4 the buffer is zeroed before
    a short text is copied, so every byte from index [length value] on
    is zero and, for a text without zero byte, the buffer is zero from
    its logical length on, whatever it held before. With any other
    capacity and a non-empty text, [assign] writes one terminator, at
    index [min (length value) (capacity - 1)], and every byte after it
    keeps the value it had before the call. *)
Theorem assign_padding_by_capacity_class
    (capacity : nat) (mData value : list byte) :
  ESM.wf_buffer capacity mData → 0 < capacity →
  let buf := ESM.assign capacity mData value in
  (capacity = sizeof_uint32 →
     (∀ i, length value ≤ i → i < capacity → buf !! i = Some NUL)
     ∧ (NUL ∉ value → zero_padded capacity buf))
  ∧ (capacity ≠ sizeof_uint32 → value ≠ [] →
     buf !! (length value `min` (capacity - 1)) = Some NUL
     ∧ ∀ i, length value `min` (capacity - 1) < i → buf !! i = mData !! i).
Proof.
  intros Hwf Hpos. cbv zeta. split.
  - intros ->.
    assert (Htail : ∀ i, length value ≤ i → i < sizeof_uint32 →
              ESM.assign sizeof_uint32 mData value !! i = Some NUL).
    { intros i Hi Hlt. by apply assign_uint32_capacity_tail. }
    split; [exact Htail|].
    intros Hnz i Hi Hlt. apply Htail; [|exact Hlt].
    assert (Hge : length value `min` sizeof_uint32
                  ≤ strnlen (ESM.assign sizeof_uint32 mData value)
                      sizeof_uint32).
    { apply strnlen_ge_nonzero_prefix; [lia|].
      intros j Hj. rewrite assign_prefix by (done || lia).
      destruct (lookup_lt_is_Some_2 value j ltac:(lia)) as [c Hc].
      exists c. split; [exact Hc|].
      intros ->. apply Hnz. eapply list_elem_of_lookup_2; eauto. }
    lia.
  - intros Hne Hval. split; [by apply assign_terminator|].
    intros i Hi. red in Hwf.
    assert (Hlen : length value ≠ 0) by (destruct value; simpl; congruence).
    unfold ESM.assign. repeat case_decide; try lia; try congruence.
    + rewrite list_lookup_insert_ne by lia.
      apply lookup_memcpy_ge; lia.
    + rewrite list_lookup_insert_ne by lia.
      rewrite !lookup_ge_None_2; [done | lia |].
      rewrite length_memcpy; lia.
Qed.

Lemma assign_padding_by_capacity_class_witness :
  ESM.assign 8 (replicate 8 xff) [x78] !! (1 `min` (8 - 1)) = Some NUL
  ∧ ESM.assign 8 (replicate 8 xff) [x78] !! 5 = replicate 8 xff !! 5.
Proof.
  destruct (assign_padding_by_capacity_class 8 (replicate 8 xff) [x78])
    as [_ Hother].
  - reflexivity.
  - lia.
  - destruct Hother as [Hterm Hkeep].
    + unfold sizeof_uint32; lia.
    + discriminate.
    + split; [exact Hterm | apply Hkeep; simpl; lia].
Defined.

(** C1, counterexample for capacities other than 4: assigning ["x"] to
    an 8-byte buffer full of [0xff] leaves [0xff] at index 2, behind
    the logical length 1. It also fails for capacity 4 when the text
    itself carries a zero byte. *)
Lemma assign_leaves_stale_tail :
  ESM.assign 8 (replicate 8 xff) [x78]
    = [x78; x00; xff; xff; xff; xff; xff; xff]
  ∧ ¬ zero_padded 8 (ESM.assign 8 (replicate 8 xff) [x78])
  ∧ ¬ zero_padded 4 (ESM.assign 4 (replicate 4 x00) [x61; x00; x62]).
Proof.
  split; [reflexivity|]. split.
  - intros H. specialize (H 2). simpl in H.
    assert (Some xff = Some NUL) by (apply H; lia). discriminate.
  - intros H. specialize (H 2). simpl in H.
    assert (Some x62 = Some NUL) by (apply H; lia). discriminate.
Qed.

(* ================================================================== *)
(** * [FixedString]: comparison with a character string *)

Lemma c_str_text_cons (c : byte) (mem : list byte) :
  ESM.c_str_text (c :: mem)
  = if is_nul c then [] else c :: ESM.c_str_text mem.
Proof. unfold ESM.c_str_text. simpl. by destruct (is_nul c). Qed.

Lemma strnlen_take_cons (c : byte) (s : list byte) (n : nat) :
  take (strnlen (c :: s) (S n)) (c :: s)
  = if is_nul c then [] else c :: take (strnlen s n) s.
Proof. simpl. by destruct (is_nul c). Qed.

(** The loop of [operator==], started at index [i] with [n] iterations
    to go, reads inside [rhs] only and decides whether what is left of
    both texts agrees. *)
Lemma eq_cstr_loop_spec (n i : nat) (mData rhs : list byte) :
  i + n = length mData → NUL ∈ drop i rhs →
  ∃ b, ESM.eq_cstr_loop n i mData rhs = Some b
       ∧ (b = true ↔
          take (strnlen (drop i mData) n) (drop i mData)
          = ESM.c_str_text (drop i rhs)).
Proof.
  revert i; induction n as [|n IH]; intros i Hlen Hnul.
  - destruct (drop i rhs) as [|r rest] eqn:Hdrop.
    { by apply not_elem_of_nil in Hnul. }
    assert (Hr : rhs !! i = Some r).
    { rewrite <- (Nat.add_0_r i), <- lookup_drop, Hdrop. reflexivity. }
    simpl. rewrite Hr. simpl. exists (is_nul r). split; [reflexivity|].
    rewrite c_str_text_cons, take_0.
    destruct (is_nul r); split; intros; congruence.
  - destruct (lookup_lt_is_Some_2 mData i ltac:(lia)) as [l Hl].
    destruct (drop i rhs) as [|r rest] eqn:Hdrop.
    { by apply not_elem_of_nil in Hnul. }
    assert (Hr : rhs !! i = Some r).
    { rewrite <- (Nat.add_0_r i), <- lookup_drop, Hdrop. reflexivity. }
    assert (Hrest : rest = drop (S i) rhs).
    { rewrite (drop_S _ _ _ Hr) in Hdrop. congruence. }
    rewrite (drop_S _ _ _ Hl), strnlen_take_cons, c_str_text_cons.
    simpl. rewrite Hl, Hr. simpl.
    destruct (Byte.eqb l r) eqn:Heq; simpl.
    + apply byte_eqb_true in Heq. subst r.
      destruct (is_nul l) eqn:Hz.
      * exists true. split; [reflexivity|]. split; intros; reflexivity.
      * destruct (IH (S i)) as (b & Hb & Hiff); [lia | |].
        { rewrite <- Hrest. apply elem_of_cons in Hnul.
          destruct Hnul as [Hnul|Hnul]; [|exact Hnul].
          apply is_nul_false in Hz. congruence. }
        exists b. split; [exact Hb|]. rewrite Hiff, Hrest.
        split; [intros ->; reflexivity | intros [= ?]; done].
    + exists false. split; [reflexivity|].
      split; [discriminate|]. intros Habs. exfalso.
      assert (Hne : l ≠ r).
      { intros ->. rewrite (Byte.byte_dec_lb eq_refl) in Heq. discriminate. }
      destruct (is_nul l) eqn:Hzl, (is_nul r) eqn:Hzr;
        try discriminate Habs.
      * apply is_nul_true in Hzl, Hzr. congruence.
      * injection Habs as ? ?. congruence.
Qed.

(** C4: for a buffer of [capacity] bytes and a null-terminated [rhs],
    the pointer overload of [operator==] reads no byte behind the
    terminator of [rhs] and returns true exactly when the text of the
    buffer (its bytes before the first zero byte, all of them if there
    is none) equals the text of [rhs]. *)
Theorem eq_cstr_compares_texts (capacity : nat) (mData rhs : list byte) :
  ESM.wf_buffer capacity mData → NUL ∈ rhs →
  ∃ b, ESM.eq_cstr capacity mData rhs = Some b
       ∧ (b = true ↔ ESM.toStringView capacity mData = ESM.c_str_text rhs).
Proof.
  intros Hwf Hnul. red in Hwf.
  apply (eq_cstr_loop_spec capacity 0 mData rhs); [lia | exact Hnul].
Qed.

Lemma eq_cstr_compares_texts_witness :
  ∃ b, ESM.eq_cstr 4 [x4e; x50; x43; x5f] [x4e; x50; x43; x5f; x00] = Some b
       ∧ (b = true ↔ ESM.toStringView 4 [x4e; x50; x43; x5f]
                     = ESM.c_str_text [x4e; x50; x43; x5f; x00]).
Proof.
  apply (eq_cstr_compares_texts 4 [x4e; x50; x43; x5f]
           [x4e; x50; x43; x5f; x00]).
  - reflexivity.
  - repeat constructor.
Defined.

(* ================================================================== *)
(** * The reader: saving and restoring contexts *)

Section ReaderFacts.

Import ESM Reader.

(** Unfold one reader operation down to its case analysis. *)
Ltac unfold_reader :=
  unfold nextRecordHeader, nextSubrecordHeader, peekSubrecordTag,
    readField, skipSubrecord, restoreContext, readUint32, readBytes,
    getRemaining, getCtx, setCtx, bind, ret, fail in *.

Ltac unfold_reader_goal :=
  unfold nextRecordHeader, nextSubrecordHeader, peekSubrecordTag,
    readField, skipSubrecord, restoreContext, readUint32, readBytes,
    getRemaining, getCtx, setCtx, bind, ret, fail;
  unfold state, remaining, subrecordHeaderSize; simpl.

Ltac split_cases :=
  repeat (simplify_eq/=; try done;
          match goal with
          | H : context [match ?x with _ => _ end] |- _ =>
              destruct x eqn:?
          | |- context [match ?x with _ => _ end] => destruct x eqn:?
          end); simplify_eq/=.

(** No operation writes to the file or changes which file is open. *)
Lemma exec_preserves_file (op : Op) (r1 r2 : RecordStreamReader) :
  exec op r1 = Ok r2 →
  mBytes r2 = mBytes r1 ∧ filename (mCtx r2) = filename (mCtx r1).
Proof.
  destruct r1 as [c bytes cur]. destruct op; unfold exec; unfold_reader;
    intros H; split_cases; auto.
Qed.

Lemma reaches_preserves_file (r r' : RecordStreamReader) :
  reaches r r' →
  mBytes r' = mBytes r ∧ filename (mCtx r') = filename (mCtx r).
Proof.
  induction 1 as [|op r1 r2 _ [IHb IHf] Hexec]; [done|].
  apply exec_preserves_file in Hexec as [Hb Hf]. split; congruence.
Qed.

Lemma reaches_trans (r1 r2 r3 : RecordStreamReader) :
  reaches r1 r2 → reaches r2 r3 → reaches r1 r3.
Proof.
  intros H12 H23. induction H23 as [|op ra rb _ IH Hexec]; [exact H12|].
  eapply reaches_step; eauto.
Qed.

Lemma run_ops_reaches (ops : list Op) (r r' : RecordStreamReader) :
  run_ops ops r = Ok r' → reaches r r'.
Proof.
  revert r; induction ops as [|op ops IH]; intros r; simpl.
  - intros [= ->]. apply reaches_refl.
  - destruct (exec op r) as [r1|e] eqn:Hexec; [|discriminate].
    intros Hrun. apply reaches_trans with r1; [|by apply IH].
    eapply reaches_step; [apply reaches_refl | exact Hexec].
Qed.

(** C6: a context saved from a reader, in any state and so in
    particular in [InRecord] and [InSubrecord], and restored after any
    sequence of successful operations on that reader, puts the reader
    back where it was: the same record and subrecord tags, the same
    remaining byte counts, the same cached-tag mark and state, the byte
    cursor at the saved offset and hence the same bytes to read next. *)
Theorem restoreContext_saveContext (r r' : RecordStreamReader) :
  reaches r r' →
  ∃ r'', restoreContext (saveContext r) r' = Ok ((), r'')
         ∧ observe r'' = observe r
         ∧ mCursor r'' = mCursor r
         ∧ mBytes r'' = mBytes r
         ∧ mCtx r'' = saveContext r.
Proof.
  intros Hreach. apply reaches_preserves_file in Hreach as [Hb Hf].
  unfold restoreContext.
  assert (Hname : filename (saveContext r) = filename (mCtx r'))
    by (rewrite Hf; reflexivity).
  rewrite decide_True by exact Hname.
  eexists. split; [reflexivity|]. simpl. rewrite Nat2N.id, Hb.
  by repeat split.
Qed.

(** Saved inside the [NAME] subrecord of the sample file, restored
    after the rest of the record has been read. *)
Lemma restoreContext_saveContext_witness :
  ∃ r'', restoreContext (saveContext sample_in_subrecord) sample_after_record
           = Ok ((), r'')
         ∧ observe r'' = observe sample_in_subrecord
         ∧ mCursor r'' = mCursor sample_in_subrecord
         ∧ mBytes r'' = mBytes sample_in_subrecord
         ∧ mCtx r'' = saveContext sample_in_subrecord.
Proof.
  apply (restoreContext_saveContext sample_in_subrecord sample_after_record).
  apply (run_ops_reaches
           [OpReadField 3; OpPeekSubrecordTag; OpNextSubrecordHeader;
            OpSkipSubrecord]).
  reflexivity.
Defined.

(* ================================================================== *)
(** * The reader: peeking at the next subrecord tag *)

(** Whenever a peek succeeds, the header read that follows it behaves
    as the header read would have without the peek: same result, same
    reader afterwards. *)
Lemma peek_then_next_is_next (r rp : RecordStreamReader) (tag : list byte) :
  subCached (mCtx r) = false →
  peekSubrecordTag r = Ok (Some tag, rp) →
  nextSubrecordHeader rp = nextSubrecordHeader r.
Proof.
  destruct r as [c bytes cur]. destruct c. simpl. intros ->.
  unfold_reader. unfold state, remaining. simpl.
  intros H. split_cases; try lia; repeat f_equal; try lia.
  all: try (exfalso; unfold remaining in *; simpl in *; lia).
Qed.

(** C7: in a record, with no tag cached and a well-formed subrecord
    header at the cursor, [peekSubrecordTag] returns the tag of that
    header, advancing over the 4 tag bytes only and setting
    [subCached]; the following [nextSubrecordHeader] returns the same
    tag from the cache and leaves the cursor exactly one header (8
    bytes) past where it was before the peek, in the very state
    [nextSubrecordHeader] alone would have produced. *)
Theorem peek_then_next_consumes_one_header
    (r : RecordStreamReader) (tag : list byte) (len : N) :
  state (mCtx r) = InRecord →
  subCached (mCtx r) = false →
  subrecord_ahead r tag len →
  ∃ rp rn,
    peekSubrecordTag r = Ok (Some tag, rp)
    ∧ subCached (mCtx rp) = true
    ∧ mCursor rp = mCursor r + 4
    ∧ nextSubrecordHeader rp = Ok (Some tag, rn)
    ∧ mCursor rn = mCursor r + 8
    ∧ subCached (mCtx rn) = false
    ∧ subName (mCtx rn) = tag
    ∧ leftRec (mCtx rn) = (leftRec (mCtx r) - subrecordHeaderSize)%N
    ∧ leftSub (mCtx rn) = len
    ∧ nextSubrecordHeader r = Ok (Some tag, rn).
Proof.
  destruct r as [c bytes cur]. destruct c. simpl.
  unfold subrecord_ahead, state, remaining, subrecordHeaderSize. simpl.
  intros Hstate -> (Htag & Hlen & Hrem & Hrec & Hfit).
  repeat case_decide; try discriminate; try lia.
  assert (Hpeek : peekSubrecordTag
            (mkReader (mkContext filename0 leftRec0 leftSub0 leftFile0
                         recName0 subName0 index0 parentFileIndices0
                         false filePos0) bytes cur)
          = Ok (Some tag,
                mkReader (mkContext filename0 leftRec0 leftSub0 leftFile0
                            recName0 tag index0 parentFileIndices0
                            true filePos0) bytes (cur + 4))).
  { unfold_reader_goal.
    repeat (case_decide; try lia; simpl). by rewrite Htag. }
  assert (Hnext : nextSubrecordHeader
            (mkReader (mkContext filename0 leftRec0 leftSub0 leftFile0
                         recName0 tag index0 parentFileIndices0
                         true filePos0) bytes (cur + 4))
          = Ok (Some tag,
                mkReader (mkContext filename0 (leftRec0 - 8) len leftFile0
                            recName0 tag index0 parentFileIndices0
                            false filePos0) bytes (cur + 4 + 4))).
  { clear Hpeek. unfold_reader_goal.
    repeat (case_decide; try lia; simpl). rewrite Hlen.
    repeat (case_decide; try lia; simpl). reflexivity. }
  eexists _, _. split; [exact Hpeek|].
  split; [reflexivity|]. split; [reflexivity|].
  split; [exact Hnext|]. simpl.
  split; [lia|]. do 4 (split; [reflexivity|]).
  rewrite <- Hnext. symmetry.
  by apply (peek_then_next_is_next _ _ tag).
Qed.

(** Peeking at the [NAME] subrecord of the sample file. *)
Lemma peek_then_next_consumes_one_header_witness :
  ∃ rp rn,
    peekSubrecordTag sample_in_record = Ok (Some [x4e; x41; x4d; x45], rp)
    ∧ subCached (mCtx rp) = true
    ∧ mCursor rp = mCursor sample_in_record + 4
    ∧ nextSubrecordHeader rp = Ok (Some [x4e; x41; x4d; x45], rn)
    ∧ mCursor rn = mCursor sample_in_record + 8
    ∧ subCached (mCtx rn) = false
    ∧ subName (mCtx rn) = [x4e; x41; x4d; x45]
    ∧ leftRec (mCtx rn)
      = (leftRec (mCtx sample_in_record) - subrecordHeaderSize)%N
    ∧ leftSub (mCtx rn) = 3%N
    ∧ nextSubrecordHeader sample_in_record
      = Ok (Some [x4e; x41; x4d; x45], rn).
Proof.
  apply (peek_then_next_consumes_one_header sample_in_record
           [x4e; x41; x4d; x45] 3%N).
  - reflexivity.
  - reflexivity.
  - split; [reflexivity|]. split; [reflexivity|].
    split; [vm_compute; lia|]. split; vm_compute; discriminate.
Defined.

End ReaderFacts.

(* ================================================================== *)
(** * The overlay: one winner per key *)

Section OverlayFacts.

Import Overlay.

Implicit Types (owners : gmap (N * string) (nat * nat)).
Implicit Types (todo : list (nat * nat * LogicalRecord)).
Implicit Types (key : N * string).

(** ** Pulling to the end is the second pass *)

Lemma next_owned_Some owners todo y rest :
  next_owned owners todo = Some (y, rest) →
  omap (select owners) todo = y :: omap (select owners) rest
  ∧ length rest < length todo.
Proof.
  induction todo as [|e todo IH]; simpl; [discriminate|].
  destruct (select owners e) as [y'|] eqn:Hsel.
  - intros [= -> ->]. split; [reflexivity | lia].
  - intros Hnext. destruct (IH Hnext) as [Heq Hlt]. split; [exact Heq | lia].
Qed.

Lemma next_owned_None owners todo :
  next_owned owners todo = None → omap (select owners) todo = [].
Proof.
  induction todo as [|e todo IH]; simpl; [done|].
  destruct (select owners e); [discriminate | exact IH].
Qed.

Lemma drain_second_pass owners fuel todo :
  length todo < fuel →
  drain fuel (mkOverlay owners todo) = omap (select owners) todo.
Proof.
  revert todo; induction fuel as [|fuel IH]; intros todo Hfuel; [lia|].
  simpl. unfold nextLogicalRecord. simpl.
  destruct (next_owned owners todo) as [[y rest]|] eqn:Hnext.
  - apply next_owned_Some in Hnext as [Heq Hlt].
    rewrite Heq, IH by lia. reflexivity.
  - apply next_owned_None in Hnext. by rewrite Hnext.
Qed.

Lemma logicalStream_second_pass (files : list (list LogicalRecord)) :
  logicalStream files = omap (select (resolve files)) (scan files).
Proof. unfold logicalStream, make. apply drain_second_pass. lia. Qed.

(** ** The first pass keeps the last claim *)

Lemma foldl_claim_other owners todo key :
  (∀ e, e ∈ todo → recKey e.2 ≠ key) →
  foldl claim owners todo !! key = owners !! key.
Proof.
  revert owners; induction todo as [|e todo IH]; intros owners Hne; [done|].
  simpl. rewrite IH.
  - unfold claim. apply lookup_insert_ne. apply Hne. left.
  - intros e' He'. apply Hne. by right.
Qed.

Lemma foldl_claim_last owners before after o rec :
  (∀ e, e ∈ after → recKey e.2 ≠ recKey rec) →
  foldl claim owners (before ++ (o, rec) :: after) !! recKey rec = Some o.
Proof.
  intros Hafter. rewrite foldl_app. simpl.
  rewrite foldl_claim_other by exact Hafter.
  unfold claim. simpl. apply lookup_insert_eq.
Qed.

(** ** Origins are unique *)

Lemma elem_of_tagged fileIndex recs e :
  e ∈ tagged fileIndex recs ↔ e.1.1 = fileIndex ∧ recs !! e.1.2 = Some e.2.
Proof.
  unfold tagged. rewrite elem_of_lookup_imap. split.
  - intros (pos & rec & -> & Hlk). done.
  - destruct e as [[f pos] rec]. simpl. intros [-> Hlk]. eauto.
Qed.

Lemma elem_of_scan_from_ge fileIndex files e :
  e ∈ scan_from fileIndex files → fileIndex ≤ e.1.1.
Proof.
  revert fileIndex; induction files as [|recs files IH]; intros k; simpl.
  - by intros ?%elem_of_nil.
  - rewrite elem_of_app, elem_of_tagged.
    intros [[-> _] | Hin]; [lia|]. apply IH in Hin. lia.
Qed.

Lemma NoDup_tagged_origins fileIndex recs :
  NoDup ((tagged fileIndex recs).*1).
Proof.
  apply NoDup_alt. intros i j o. unfold tagged.
  rewrite !list_lookup_fmap, !list_lookup_imap.
  destruct (recs !! i); simpl; [|discriminate].
  destruct (recs !! j); simpl; [|discriminate].
  intros [= <-] [= Heq]. done.
Qed.

Lemma NoDup_scan_origins fileIndex files :
  NoDup ((scan_from fileIndex files).*1).
Proof.
  revert fileIndex; induction files as [|recs files IH]; intros k; simpl.
  - constructor.
  - rewrite fmap_app. apply NoDup_app. split; [apply NoDup_tagged_origins|].
    split; [|apply IH].
    intros o [e1 [-> He1]]%list_elem_of_fmap [e2 [Heq He2]]%list_elem_of_fmap.
    apply elem_of_tagged in He1 as [Hf _].
    apply elem_of_scan_from_ge in He2. rewrite <- Heq in He2. lia.
Qed.

(** ** Only the winner is streamed *)

Lemma about_losers owners todo key o :
  owners !! key = Some o →
  (∀ e, e ∈ todo → recKey e.2 = key → e.1 ≠ o) →
  filter (λ y, yieldKey y = key) (omap (select owners) todo) = [].
Proof.
  intros Hown.
  induction todo as [|e todo IH]; intros Hlose; [done|].
  assert (Hrest : filter (λ y, yieldKey y = key) (omap (select owners) todo)
                  = []).
  { apply IH. intros e' He'. apply Hlose. by right. }
  simpl. unfold select at 1. case_decide as Hsel; [|exact Hrest].
  rewrite filter_cons_False; [exact Hrest|].
  intros Hkey.
  assert (Hk : recKey e.2 = key).
  { revert Hkey. unfold surface. by destruct (isBlocked e.2). }
  apply (Hlose e); [left | exact Hk |]. rewrite Hk in Hsel. congruence.
Qed.

Lemma yieldKey_surface e : yieldKey (surface e) = recKey e.2.
Proof. unfold surface. by destruct (isBlocked e.2). Qed.

(** In a sequence with unique origins, what is streamed about a key is
    its last entry and nothing else. *)
Lemma about_last_claim todo i o rec :
  NoDup (todo.*1) →
  todo !! i = Some (o, rec) →
  (∀ j e, i < j → todo !! j = Some e → recKey e.2 ≠ recKey rec) →
  about (recKey rec) (omap (select (foldl claim ∅ todo)) todo)
  = [surface (o, rec)].
Proof.
  intros Hnd Hi Hlast.
  pose proof (take_drop_middle todo i (o, rec) Hi) as Hsplit.
  set (before := take i todo) in *. set (after := drop (S i) todo) in *.
  assert (Hlen : length before = i).
  { unfold before. rewrite length_take. apply lookup_lt_Some in Hi. lia. }
  assert (Hafter : ∀ e, e ∈ after → recKey e.2 ≠ recKey rec).
  { intros e [j Hj]%list_elem_of_lookup_1. unfold after in Hj.
    rewrite lookup_drop in Hj. apply (Hlast (S i + j)); [lia | exact Hj]. }
  assert (Hown : foldl claim ∅ todo !! recKey rec = Some o).
  { rewrite <- Hsplit. by apply foldl_claim_last. }
  set (owners := foldl claim ∅ todo) in *.
  rewrite <- Hsplit at 1. rewrite omap_app. unfold about.
  rewrite filter_app. simpl.
  rewrite (about_losers owners before _ o Hown).
  - unfold select at 1. simpl. rewrite decide_True by exact Hown.
    rewrite filter_cons_True by apply yieldKey_surface.
    f_equal. apply (about_losers owners after _ o Hown).
    intros e He Hk. by apply Hafter in He.
  - intros e [j Hj]%list_elem_of_lookup_1 _ Heq.
    unfold before in Hj. apply lookup_take_Some in Hj as [Hj Hlt].
    assert (j = i); [|lia].
    apply (NoDup_lookup _ j i o Hnd); rewrite list_lookup_fmap.
    + by rewrite Hj, <- Heq.
    + by rewrite Hi.
Qed.

Lemma length_tagged fileIndex recs :
  length (tagged fileIndex recs) = length recs.
Proof. apply length_imap. Qed.

Lemma lookup_tagged fileIndex recs pos :
  tagged fileIndex recs !! pos = (λ rec, (fileIndex, pos, rec)) <$> recs !! pos.
Proof. unfold tagged. by rewrite list_lookup_imap. Qed.

(** C2: with a base file [A] and a later file [B] that both define the
    key, where [b] is the entry of [B] for it (the last one, should [B]
    repeat the key), all the overlay over [A; B] yields about the key
    is the one entry of [B], with file index 1: the record [b] itself
    when it is not blocked; when [b] carries the [Blocked] flag, a
    tombstone for the key and no record with that key at all. *)
Theorem overlay_later_file_wins
    (A B : list LogicalRecord) (key : N * string) (pos : nat)
    (b : LogicalRecord) :
  (∃ a, a ∈ A ∧ recKey a = key) →
  B !! pos = Some b → recKey b = key →
  (∀ pos' b', pos < pos' → B !! pos' = Some b' → recKey b' ≠ key) →
  about key (logicalStream [A; B]) = [surface (1, pos, b)]
  ∧ (isBlocked b = false →
     about key (logicalStream [A; B]) = [Visible 1 b])
  ∧ (isBlocked b = true →
     about key (logicalStream [A; B]) = [Tombstone 1 key]
     ∧ ∀ fileIndex rec,
         Visible fileIndex rec ∈ logicalStream [A; B] → recKey rec ≠ key).
Proof.
  intros _ Hb <- Hlast.
  assert (Hwin : about (recKey b) (logicalStream [A; B])
                 = [surface (1, pos, b)]).
  { rewrite logicalStream_second_pass. unfold resolve, scan.
    apply (about_last_claim _ (length A + pos)).
    - apply NoDup_scan_origins.
    - simpl. rewrite lookup_app_r by (rewrite length_tagged; lia).
      rewrite length_tagged, app_nil_r.
      replace (length A + pos - length A) with pos by lia.
      by rewrite lookup_tagged, Hb.
    - intros j e Hj. simpl.
      rewrite lookup_app_r by (rewrite length_tagged; lia).
      rewrite length_tagged, app_nil_r, lookup_tagged.
      destruct (B !! (j - length A)) as [b'|] eqn:Hb'; [|discriminate].
      intros [= <-]. simpl. apply (Hlast (j - length A)); [lia | exact Hb']. }
  split; [exact Hwin|]. unfold surface in Hwin. simpl in Hwin. split.
  - intros Hnb. by rewrite Hnb in Hwin.
  - intros Hbl. rewrite Hbl in Hwin. split; [exact Hwin|].
    intros f rec Hin Hkey.
    assert (Hin' : Visible f rec ∈ about (recKey b) (logicalStream [A; B])).
    { unfold about. apply list_elem_of_filter. split; [exact Hkey | exact Hin]. }
    rewrite Hwin in Hin'. apply list_elem_of_singleton in Hin'. discriminate.
Qed.

(** The scenario of the specification: [patch.dat] blocks the guard
    that [base.dat] defines. *)
Lemma overlay_later_file_wins_witness :
  about guard01 (logicalStream [base_dat; patch_dat])
    = [Tombstone 1 guard01]
  ∧ ∀ fileIndex rec,
      Visible fileIndex rec ∈ logicalStream [base_dat; patch_dat] →
      recKey rec ≠ guard01.
Proof.
  destruct (overlay_later_file_wins base_dat patch_dat guard01 0
              (mkRecord guard01 ESM.FLAG_Blocked [])) as (_ & _ & Hblocked).
  - exists (mkRecord guard01 0 [x02]). split; [right; left | reflexivity].
  - reflexivity.
  - reflexivity.
  - intros pos' b' Hpos. destruct pos'; [lia|]. discriminate.
  - apply Hblocked. reflexivity.
Defined.

End OverlayFacts.

(* ================================================================== *)
(** * [FixedString]: further properties of the buffer operations *)

Section FixedStringFacts.

Import ESM.

Lemma strnlen_min s n : strnlen s n = strnlen s (length s) `min` n.
Proof.
  revert s; induction n as [|n IH]; intros [|c s]; simpl; try lia.
  destruct (is_nul c); [lia|]. rewrite (IH s). lia.
Qed.

Lemma strnlen_app_nul p rest n :
  length p < n → strnlen (p ++ NUL :: rest) n = strnlen p (length p).
Proof.
  revert n; induction p as [|c p IH]; intros [|n] Hn; simpl in *; try lia.
  destruct (is_nul c); [reflexivity|]. rewrite IH by lia. reflexivity.
Qed.

Lemma strnlen_take s m :
  strnlen (take m s) (length (take m s)) = m `min` strnlen s (length s).
Proof.
  revert s; induction m as [|m IH]; intros [|c s]; simpl; try lia.
  destruct (is_nul c); [lia|]. rewrite IH. lia.
Qed.

Lemma c_str_text_length mem :
  length (c_str_text mem) = strnlen mem (length mem).
Proof.
  unfold c_str_text. rewrite length_take.
  pose proof (strnlen_le_length mem (length mem)). lia.
Qed.

(** The bytes a short text leaves in the buffer: the text, a zero byte,
    and whatever follows. *)
Lemma text_then_nul_view capacity p rest :
  length p < capacity →
  toStringView capacity (p ++ NUL :: rest) = c_str_text p.
Proof.
  intros Hlen. unfold toStringView, c_str_text.
  rewrite strnlen_app_nul by exact Hlen.
  apply take_app_le, strnlen_le_length.
Qed.

Lemma c_str_text_take m s : c_str_text (take m s) = take m (c_str_text s).
Proof.
  unfold c_str_text. rewrite strnlen_take, !take_take. f_equal. lia.
Qed.

Lemma whole_buffer_view capacity s :
  length s = capacity → toStringView capacity s = c_str_text s.
Proof. intros <-. reflexivity. Qed.

(** The bytes [assign] leaves for a text that fits, for a capacity
    other than 4. *)
Lemma assign_short_shape capacity mData value :
  wf_buffer capacity mData → capacity ≠ sizeof_uint32 →
  length value ≠ 0 → length value < capacity →
  assign capacity mData value = value ++ NUL :: drop (S (length value)) mData.
Proof.
  unfold wf_buffer, assign. intros Hwf Hne Hnz Hlt.
  repeat case_decide; try lia. unfold memcpy.
  rewrite take_ge by lia.
  rewrite insert_app_r_alt by lia. rewrite Nat.sub_diag.
  destruct (lookup_lt_is_Some_2 mData (length value) ltac:(lia)) as [y Hy].
  by rewrite (drop_S _ _ _ Hy).
Qed.

(** The bytes [assign] leaves for a text that does not fit, for a
    capacity other than 4. *)
Lemma assign_long_shape capacity mData value :
  wf_buffer capacity mData → 0 < capacity → capacity ≠ sizeof_uint32 →
  capacity ≤ length value →
  assign capacity mData value = take (capacity - 1) value ++ [NUL].
Proof.
  unfold wf_buffer, assign. intros Hwf Hpos Hne Hge.
  repeat case_decide; try lia. unfold memcpy.
  rewrite drop_ge, app_nil_r by lia.
  destruct (lookup_lt_is_Some_2 value (capacity - 1) ltac:(lia)) as [y Hy].
  replace (take capacity value) with (take (S (capacity - 1)) value)
    by (f_equal; lia).
  rewrite (take_S_r _ _ _ Hy).
  rewrite insert_app_r_alt by (rewrite length_take; lia).
  rewrite length_take.
  replace (capacity - 1 - (capacity - 1) `min` length value) with 0 by lia.
  reflexivity.
Qed.

(** For capacity 4 the buffer after [assign] is the text cut or
    zero-padded to four bytes. *)
Lemma assign_tag_shape mData value :
  wf_buffer sizeof_uint32 mData →
  assign sizeof_uint32 mData value
  = take sizeof_uint32 (value ++ replicate sizeof_uint32 NUL).
Proof.
  unfold wf_buffer, assign, clear, sizeof_uint32. intros Hwf.
  repeat case_decide; try lia.
  - destruct value; [|simpl in *; lia]. simpl.
    rewrite <- Hwf at 1. rewrite memset_all, Hwf. reflexivity.
  - unfold memcpy. rewrite take_ge by lia.
    rewrite take_app_ge by lia. f_equal.
    rewrite <- Hwf at 1. rewrite memset_all, Hwf.
    rewrite drop_replicate, take_replicate. f_equal. lia.
  - unfold memcpy. rewrite drop_ge, app_nil_r by lia.
    by rewrite take_app_le by lia.
Qed.

Lemma assign_view capacity mData value :
  wf_buffer capacity mData → 0 < capacity →
  toStringView capacity (assign capacity mData value)
  = take (text_limit capacity) (c_str_text value).
Proof.
  intros Hwf Hpos. unfold text_limit.
  destruct (decide (capacity = sizeof_uint32)) as [->|Hne].
  - rewrite assign_tag_shape by exact Hwf.
    rewrite whole_buffer_view.
    + rewrite c_str_text_take. f_equal.
      destruct (decide (length value = 0)) as [Hz|Hnz].
      * destruct value; [reflexivity | discriminate].
      * unfold sizeof_uint32.
        change (replicate 4 NUL) with (NUL :: replicate 3 NUL).
        unfold c_str_text at 1. rewrite length_app. simpl.
        rewrite strnlen_app_nul by lia.
        apply take_app_le, strnlen_le_length.
    + rewrite length_take, length_app, length_replicate. lia.
  - destruct (decide (length value = 0)) as [Hz|Hnz].
    + destruct value; [|discriminate]. 
      replace (assign capacity mData []) with (replicate capacity NUL).
      * unfold toStringView, c_str_text. simpl. rewrite take_nil.
        destruct capacity; [lia | reflexivity].
      * unfold assign, clear. simpl. red in Hwf. rewrite <- Hwf.
        symmetry. apply memset_all.
    + destruct (decide (length value < capacity)) as [Hlt|Hge].
      * rewrite assign_short_shape by done.
        rewrite text_then_nul_view by exact Hlt.
        symmetry. apply take_ge. rewrite c_str_text_length.
        pose proof (strnlen_le_length value (length value)). lia.
      * rewrite assign_long_shape by (done || lia).
        rewrite text_then_nul_view by (rewrite length_take; lia).
        apply c_str_text_take.
Qed.

(** X1: for a text stored outside the buffer, whatever the text and
    whatever the buffer held before, the text read back after [assign]
    is the text before its first zero byte, cut to [capacity - 1]
    bytes, or to 4 bytes for capacity 4; it does not depend on the
    previous contents of the buffer. *)
Theorem assign_then_toStringView
    (capacity : nat) (mData mData' value : list byte) :
  wf_buffer capacity mData → wf_buffer capacity mData' → 0 < capacity →
  toStringView capacity (assign capacity mData value)
  = take (text_limit capacity) (c_str_text value)
  ∧ toStringView capacity (assign capacity mData value)
    = toStringView capacity (assign capacity mData' value).
Proof.
  intros Hwf Hwf' Hpos. split; [by apply assign_view|].
  by rewrite !assign_view.
Qed.

Lemma assign_then_toStringView_witness :
  toStringView 8 (assign 8 (replicate 8 xff)
                   [x61; x62; x63; x64; x65; x66; x67; x68; x69])
  = take (text_limit 8)
      (c_str_text [x61; x62; x63; x64; x65; x66; x67; x68; x69])
  ∧ toStringView 8 (assign 8 (replicate 8 xff)
                      [x61; x62; x63; x64; x65; x66; x67; x68; x69])
    = toStringView 8 (assign 8 (replicate 8 x00)
                        [x61; x62; x63; x64; x65; x66; x67; x68; x69]).
Proof.
  apply (assign_then_toStringView 8 (replicate 8 xff) (replicate 8 x00)
           [x61; x62; x63; x64; x65; x66; x67; x68; x69]).
  - reflexivity.
  - reflexivity.
  - lia.
Defined.

Lemma c_str_text_no_nul (mem : list byte) :
  NUL ∉ mem → c_str_text mem = mem.
Proof.
  intros Hnot. unfold c_str_text.
  rewrite strnlen_no_nul; [apply take_ge; lia | lia |].
  by rewrite take_ge by lia.
Qed.

(** X2: a text stored outside the buffer, without zero byte, that fits
    (at most [capacity - 1] bytes, or 4 bytes for capacity 4) is read
    back unchanged after [assign]. *)
Theorem assign_toStringView_roundtrip
    (capacity : nat) (mData value : list byte) :
  wf_buffer capacity mData → 0 < capacity →
  NUL ∉ value → length value ≤ text_limit capacity →
  toStringView capacity (assign capacity mData value) = value
  ∧ toString capacity (assign capacity mData value) = value.
Proof.
  intros Hwf Hpos Hnot Hfit.
  assert (Hview : toStringView capacity (assign capacity mData value) = value).
  { rewrite assign_view by done. rewrite c_str_text_no_nul by exact Hnot.
    apply take_ge. exact Hfit. }
  split; exact Hview.
Qed.

Lemma assign_toStringView_roundtrip_witness :
  toStringView 32 (assign 32 (replicate 32 xff) [x67; x75; x61; x72; x64])
  = [x67; x75; x61; x72; x64]
  ∧ toString 32 (assign 32 (replicate 32 xff) [x67; x75; x61; x72; x64])
    = [x67; x75; x61; x72; x64].
Proof.
  apply (assign_toStringView_roundtrip 32 (replicate 32 xff)
           [x67; x75; x61; x72; x64]).
  - reflexivity.
  - lia.
  - intros Hin. repeat (apply elem_of_cons in Hin as [Hin|Hin];
                        [discriminate|]).
    by apply not_elem_of_nil in Hin.
  - vm_compute. lia.
Defined.

(** X3: after [assign] from the text of another buffer object [src] of
    the same capacity, terminated or a 4-byte tag, the destination
    reads back the same text: copying from one buffer to a different
    one through [toStringView] loses nothing. (The destination is not
    [src] itself: a view into the buffer being assigned is outside
    [assign] as defined here.) *)
Theorem assign_own_text (capacity : nat) (mData src : list byte) :
  wf_buffer capacity mData → wf_buffer capacity src → 0 < capacity →
  capacity = sizeof_uint32 ∨ NUL ∈ src →
  toStringView capacity (assign capacity mData (toStringView capacity src))
  = toStringView capacity src.
Proof.
  intros Hwf Hsrc Hpos Hterm. rewrite assign_view by done.
  rewrite c_str_text_no_nul by apply strnlen_prefix_nonzero.
  apply take_ge. unfold toStringView at 1. rewrite length_take.
  pose proof (strnlen_le_max src capacity) as Hmax.
  unfold text_limit. case_decide as Hcap; [lia|].
  destruct Hterm as [?|[k Hk]%list_elem_of_lookup_1]; [done|].
  pose proof (strnlen_le_nul src capacity k Hk) as Hle.
  apply lookup_lt_Some in Hk. red in Hsrc. lia.
Qed.

Lemma assign_own_text_witness :
  toStringView 8
    (assign 8 (replicate 8 xff)
       (toStringView 8 [x61; x62; x00; x63; x64; x65; x66; x67]))
  = toStringView 8 [x61; x62; x00; x63; x64; x65; x66; x67].
Proof.
  apply (assign_own_text 8 (replicate 8 xff)
           [x61; x62; x00; x63; x64; x65; x66; x67]).
  - reflexivity.
  - reflexivity.
  - lia.
  - right. do 2 right. left.
Defined.

(** X4: with a buffer of [capacity > 0] bytes, every [memset],
    [memcpy] and single-byte store of [clear], [assign] (for a text of
    any length, held outside the buffer) and, for capacity 4,
    [operator=(uint32_t)] stays inside [mData] and inside the text: the
    bounds-checked run never fails and gives the buffer of the plain
    definitions, which has exactly [capacity] bytes. *)
Theorem mutators_stay_in_bounds
    (capacity : nat) (host : ByteOrder) (mData value : list byte) (tag : N) :
  wf_buffer capacity mData → 0 < capacity →
  clear_checked capacity mData = Some (clear capacity mData)
  ∧ assign_checked capacity mData value
    = Some (assign capacity mData value)
  ∧ (capacity = sizeof_uint32 →
     assign_uint32_checked capacity host mData tag
     = Some (assign_uint32 capacity host mData tag))
  ∧ wf_buffer capacity (clear capacity mData)
  ∧ wf_buffer capacity (assign capacity mData value)
  ∧ (capacity = sizeof_uint32 →
     wf_buffer capacity (assign_uint32 capacity host mData tag)).
Proof.
  intros Hwf Hpos.
  assert (Hclear : clear_checked capacity mData = Some (clear capacity mData)).
  { red in Hwf. unfold clear_checked, memset_checked, clear.
    by rewrite decide_True by lia. }
  split; [exact Hclear|]. split; [|split; [|split; [|split]]].
  - red in Hwf. clear Hclear.
    assert (Hset : length (memset mData NUL capacity) = capacity)
      by (rewrite length_memset; lia).
    assert (Hcpy : ∀ d n, length d = capacity → n ≤ capacity →
              n ≤ length value → length (memcpy d value n) = capacity)
      by (intros d n Hd Hn Hv; rewrite length_memcpy; lia).
    unfold assign_checked, assign, clear_checked, clear, memset_checked.
    repeat (case_decide; simpl; try lia); try reflexivity;
      unfold memcpy_checked;
      repeat (case_decide; simpl; try lia); try reflexivity;
      unfold store_checked;
      repeat (case_decide; simpl; try lia); try reflexivity;
      try (exfalso; rewrite ?Hcpy, ?Hset in * by lia; lia).
  - intros ->. red in Hwf.
    unfold assign_uint32_checked, memcpy_checked.
    by rewrite decide_True by (rewrite length_uint32_bytes; lia).
  - unfold wf_buffer, clear in *. rewrite length_memset; lia.
  - by apply assign_length.
  - intros ->. unfold wf_buffer, assign_uint32 in *.
    rewrite length_memcpy; rewrite ?length_uint32_bytes; lia.
Qed.

Lemma mutators_stay_in_bounds_witness :
  clear_checked 8 (replicate 8 xff) = Some (clear 8 (replicate 8 xff))
  ∧ assign_checked 8 (replicate 8 xff)
      [x61; x62; x63; x64; x65; x66; x67; x68; x69]
    = Some (assign 8 (replicate 8 xff)
              [x61; x62; x63; x64; x65; x66; x67; x68; x69])
  ∧ (8 = sizeof_uint32 →
     assign_uint32_checked 8 BigEndian (replicate 8 xff) 7%N
     = Some (assign_uint32 8 BigEndian (replicate 8 xff) 7%N))
  ∧ wf_buffer 8 (clear 8 (replicate 8 xff))
  ∧ wf_buffer 8 (assign 8 (replicate 8 xff)
                   [x61; x62; x63; x64; x65; x66; x67; x68; x69])
  ∧ (8 = sizeof_uint32 →
     wf_buffer 8 (assign_uint32 8 BigEndian (replicate 8 xff) 7%N)).
Proof.
  apply (mutators_stay_in_bounds 8 BigEndian (replicate 8 xff)
           [x61; x62; x63; x64; x65; x66; x67; x68; x69] 7%N).
  - reflexivity.
  - lia.
Defined.

(** ** Comparison with [std::string] *)

Lemma c_str_text_app_nul (rhs : list byte) :
  c_str_text (rhs ++ [NUL]) = c_str_text rhs.
Proof.
  unfold c_str_text. rewrite length_app. simpl.
  rewrite strnlen_app_nul by lia.
  apply take_app_le, strnlen_le_length.
Qed.

Lemma eq_string_spec capacity mData rhs :
  wf_buffer capacity mData →
  ∃ b, eq_string capacity mData rhs = Some b
       ∧ (b = true ↔ toStringView capacity mData = c_str_text rhs).
Proof.
  intros Hwf. red in Hwf. unfold eq_string, eq_cstr.
  destruct (eq_cstr_loop_spec capacity 0 mData (rhs ++ [NUL]))
    as (b & Hb & Hiff); [lia | |].
  - simpl. apply elem_of_app. right. left.
  - exists b. split; [exact Hb|].
    rewrite <- c_str_text_app_nul. exact Hiff.
Qed.

(** X5: the [std::string] overload of [operator==] is defined for every
    buffer and every string: it reads no byte outside the buffer or the
    string's [c_str()], and is true exactly when the text of the buffer
    equals the string up to its first zero byte, so for a string
    without zero byte exactly when the text equals the string. *)
Theorem eq_string_compares_texts (capacity : nat) (mData rhs : list byte) :
  wf_buffer capacity mData →
  ∃ b, eq_string capacity mData rhs = Some b
       ∧ ne_string capacity mData rhs = Some (negb b)
       ∧ (b = true ↔ toStringView capacity mData = c_str_text rhs)
       ∧ (NUL ∉ rhs → (b = true ↔ toStringView capacity mData = rhs)).
Proof.
  intros Hwf. destruct (eq_string_spec capacity mData rhs Hwf)
    as (b & Hb & Hiff).
  exists b. split; [exact Hb|]. split; [|split; [exact Hiff|]].
  - unfold ne_string. by rewrite Hb.
  - intros Hnot. by rewrite Hiff, c_str_text_no_nul.
Qed.

Lemma eq_string_compares_texts_witness :
  ∃ b, eq_string 4 [x4e; x50; x43; x5f] [x4e; x50; x43; x5f] = Some b
       ∧ ne_string 4 [x4e; x50; x43; x5f] [x4e; x50; x43; x5f]
         = Some (negb b)
       ∧ (b = true ↔ toStringView 4 [x4e; x50; x43; x5f]
                     = c_str_text [x4e; x50; x43; x5f])
       ∧ (NUL ∉ [x4e; x50; x43; x5f] →
          (b = true ↔ toStringView 4 [x4e; x50; x43; x5f]
                      = [x4e; x50; x43; x5f])).
Proof.
  apply (eq_string_compares_texts 4 [x4e; x50; x43; x5f]
           [x4e; x50; x43; x5f]).
  reflexivity.
Defined.

(** X6: after assigning a text stored outside the buffer, without zero
    byte, that fits, the buffer compares equal to a zero-free
    [std::string] exactly when that string is the assigned text. *)
Theorem assign_then_eq_string
    (capacity : nat) (mData value rhs : list byte) :
  wf_buffer capacity mData → 0 < capacity →
  NUL ∉ value → length value ≤ text_limit capacity → NUL ∉ rhs →
  eq_string capacity (assign capacity mData value) rhs
  = Some (bool_decide (value = rhs)).
Proof.
  intros Hwf Hpos Hnot Hfit Hrhs.
  destruct (eq_string_spec capacity (assign capacity mData value) rhs)
    as (b & Hb & Hiff); [by apply assign_length|].
  rewrite Hb. f_equal.
  rewrite assign_view, !c_str_text_no_nul in Hiff by done.
  rewrite take_ge in Hiff by exact Hfit.
  destruct b; symmetry.
  - apply bool_decide_eq_true. by apply Hiff.
  - apply bool_decide_eq_false. intros Heq. by apply Hiff in Heq.
Qed.

Lemma assign_then_eq_string_witness :
  eq_string 32 (assign 32 (replicate 32 xff) [x67; x75; x61; x72; x64])
    [x67; x75; x61; x72; x64]
  = Some (bool_decide ([x67; x75; x61; x72; x64]
                       = [x67; x75; x61; x72; x64] :> list byte)).
Proof.
  assert (Hnot : NUL ∉ [x67; x75; x61; x72; x64]).
  { intros Hin. repeat (apply elem_of_cons in Hin as [Hin|Hin];
                        [discriminate|]).
    by apply not_elem_of_nil in Hin. }
  apply (assign_then_eq_string 32 (replicate 32 xff)
           [x67; x75; x61; x72; x64] [x67; x75; x61; x72; x64]).
  - reflexivity.
  - lia.
  - exact Hnot.
  - vm_compute. lia.
  - exact Hnot.
Defined.

(** ** Comparison with a character array *)

Lemma byte_compare_Eq (a b : byte) :
  N.compare (Byte.to_N a) (Byte.to_N b) = Eq → a = b.
Proof.
  intros Heq%N.compare_eq_iff.
  pose proof (Byte.of_to_N a) as Ha. pose proof (Byte.of_to_N b) as Hb.
  rewrite Heq in Ha. congruence.
Qed.

(** [strncmp], started at index [i] with [n] characters to go, stays
    inside [rhs] when [rhs] is terminated or long enough, and returns
    [Eq] exactly when what is left of both texts, cut to [n] bytes,
    agrees. *)
Lemma strncmp_from_spec (n i : nat) (mData rhs : list byte) :
  i + n = length mData →
  NUL ∈ drop i rhs ∨ i + n ≤ length rhs →
  ∃ c, strncmp_from n i mData rhs = Some c
       ∧ (c = Eq ↔
          take (strnlen (drop i mData) n) (drop i mData)
          = take (strnlen (drop i rhs) n) (drop i rhs)).
Proof.
  revert i; induction n as [|n IH]; intros i Hlen Hin.
  - exists Eq. simpl. done.
  - destruct (lookup_lt_is_Some_2 mData i ltac:(lia)) as [l Hl].
    assert (Hr : is_Some (rhs !! i)).
    { destruct Hin as [Hnul|Hlong]; [|apply lookup_lt_is_Some_2; lia].
      destruct (drop i rhs) as [|r rest] eqn:Hdrop.
      - by apply not_elem_of_nil in Hnul.
      - exists r. rewrite <- (Nat.add_0_r i), <- lookup_drop, Hdrop.
        reflexivity. }
    destruct Hr as [r Hr].
    rewrite (drop_S _ _ _ Hl), (drop_S _ _ _ Hr), !strnlen_take_cons.
    simpl. rewrite Hl, Hr. simpl.
    destruct (Byte.eqb l r) eqn:Heq; simpl.
    + apply byte_eqb_true in Heq. subst r.
      destruct (is_nul l) eqn:Hz.
      * exists Eq. done.
      * destruct (IH (S i)) as (c & Hc & Hiff); [lia | |].
        { destruct Hin as [Hnul|Hlong]; [left | right; lia].
          rewrite (drop_S _ _ _ Hr) in Hnul.
          apply elem_of_cons in Hnul as [Hnul|Hnul]; [|exact Hnul].
          apply is_nul_false in Hz. congruence. }
        exists c. split; [exact Hc|]. rewrite Hiff.
        split; [intros ->; reflexivity | intros [= ?]; done].
    + assert (Hne : l ≠ r).
      { intros ->. rewrite (Byte.byte_dec_lb eq_refl) in Heq. discriminate. }
      eexists. split; [reflexivity|]. split.
      * intros Hcmp. by apply byte_compare_Eq in Hcmp.
      * intros Habs. exfalso.
        destruct (is_nul l) eqn:Hzl, (is_nul r) eqn:Hzr;
          try discriminate Habs.
        -- apply is_nul_true in Hzl, Hzr. congruence.
        -- injection Habs as ? ?. congruence.
Qed.

(** X7: for a character array that holds a zero byte, or is at least
    as long as the buffer, the array overload of [operator==] reads
    inside both arrays only and is true exactly when the text of the
    buffer equals the text of the array; for an array with a zero byte
    it returns what the pointer overload returns. *)
Theorem eq_array_compares_texts (capacity : nat) (mData rhs : list byte) :
  wf_buffer capacity mData →
  NUL ∈ rhs ∨ capacity ≤ length rhs →
  ∃ b, eq_array capacity mData rhs = Some b
       ∧ ne_array capacity mData rhs = Some (negb b)
       ∧ (b = true ↔ toStringView capacity mData = c_str_text rhs)
       ∧ (NUL ∈ rhs → eq_cstr capacity mData rhs = Some b).
Proof.
  intros Hwf Hrhs. red in Hwf.
  assert (Hmain : ∃ b, eq_array capacity mData rhs = Some b
            ∧ (b = true ↔ toStringView capacity mData = c_str_text rhs)).
  { unfold eq_array, strncmp. case_decide as Hlens.
    - destruct (strncmp_from_spec capacity 0 mData rhs)
        as (c & Hc & Hiff); [lia | exact Hrhs |].
      change (c = Eq ↔ take (strnlen mData capacity) mData
                        = take (strnlen rhs capacity) rhs) in Hiff.
      rewrite Hc. simpl. eexists. split; [reflexivity|].
      assert (Hcut : strnlen rhs capacity = strnlen rhs (length rhs)).
      { rewrite strnlen_min. pose proof (strnlen_le_max mData capacity).
        lia. }
      rewrite Hcut in Hiff. unfold toStringView, c_str_text.
      rewrite <- Hiff. destruct c; split; congruence.
    - exists false. split; [reflexivity|]. split; [discriminate|].
      intros Heq. exfalso. apply Hlens.
      apply (f_equal length) in Heq.
      rewrite c_str_text_length in Heq. rewrite <- Heq.
      unfold toStringView. rewrite length_take.
      pose proof (strnlen_le_length mData capacity). lia. }
  destruct Hmain as (b & Hb & Hiff). exists b.
  split; [exact Hb|]. split; [|split; [exact Hiff|]].
  - unfold ne_array. by rewrite Hb.
  - intros Hnul.
    destruct (eq_cstr_loop_spec capacity 0 mData rhs)
      as (b' & Hb' & Hiff'); [lia | exact Hnul |].
    unfold eq_cstr. rewrite Hb'. f_equal.
    change (b' = true ↔ toStringView capacity mData = c_str_text rhs)
      in Hiff'.
    destruct b, b'; try reflexivity.
    + apply Hiff'. by apply Hiff.
    + symmetry. apply Hiff. by apply Hiff'.
Qed.

Lemma eq_array_compares_texts_witness :
  ∃ b, eq_array 8 [x61; x62; x00; xff; xff; xff; xff; xff] [x61; x62; x00]
       = Some b
       ∧ ne_array 8 [x61; x62; x00; xff; xff; xff; xff; xff] [x61; x62; x00]
         = Some (negb b)
       ∧ (b = true ↔
          toStringView 8 [x61; x62; x00; xff; xff; xff; xff; xff]
          = c_str_text [x61; x62; x00])
       ∧ (NUL ∈ [x61; x62; x00] →
          eq_cstr 8 [x61; x62; x00; xff; xff; xff; xff; xff] [x61; x62; x00]
          = Some b).
Proof.
  apply (eq_array_compares_texts 8
           [x61; x62; x00; xff; xff; xff; xff; xff] [x61; x62; x00]).
  - reflexivity.
  - left. do 2 right. left.
Defined.

Lemma strncmp_from_common_prefix (k n i : nat) (s1 s2 : list byte) :
  k ≤ n →
  (∀ j, j < k →
     ∃ c, s1 !! (i + j) = Some c ∧ s2 !! (i + j) = Some c ∧ c ≠ NUL) →
  strncmp_from n i s1 s2 = strncmp_from (n - k) (i + k) s1 s2.
Proof.
  revert n i; induction k as [|k IH]; intros n i Hk Hpre.
  - by rewrite Nat.sub_0_r, Nat.add_0_r.
  - destruct n as [|n]; [lia|].
    destruct (Hpre 0 ltac:(lia)) as (c & H1 & H2 & Hc).
    rewrite Nat.add_0_r in H1, H2. simpl. rewrite H1, H2. simpl.
    rewrite (Byte.byte_dec_lb eq_refl). simpl.
    apply is_nul_false in Hc. rewrite Hc.
    rewrite (IH n (S i)); [f_equal; lia | lia |].
    intros j Hj. destruct (Hpre (S j) ltac:(lia)) as (c' & ? & ? & ?).
    exists c'. by replace (S i + j) with (i + S j) by lia.
Qed.

(** X8: the array overload of [operator==] must not be given an array
    without zero byte that is shorter than the buffer: when such an
    array equals the text of the buffer, [strncmp] reads the array one
    past its end, and the comparison has no defined result. *)
Theorem eq_array_unterminated_short
    (capacity : nat) (mData rhs : list byte) :
  wf_buffer capacity mData →
  NUL ∉ rhs → length rhs < capacity →
  toStringView capacity mData = rhs →
  eq_array capacity mData rhs = None.
Proof.
  intros Hwf Hnot Hshort Htext. red in Hwf.
  assert (Hlen : strnlen mData capacity = length rhs).
  { apply (f_equal length) in Htext. rewrite <- Htext.
    unfold toStringView. rewrite length_take.
    pose proof (strnlen_le_length mData capacity). lia. }
  unfold eq_array, strncmp.
  rewrite (strnlen_no_nul rhs (length rhs)), Hlen;
    [|lia | by rewrite take_ge by lia].
  rewrite decide_True by reflexivity.
  rewrite (strncmp_from_common_prefix (length rhs)); [|lia|].
  - destruct (capacity - length rhs) as [|m] eqn:Hm; [lia|].
    simpl.
    destruct (lookup_lt_is_Some_2 mData (length rhs) ltac:(lia)) as [l Hl].
    rewrite Hl. simpl. by rewrite lookup_ge_None_2 by lia.
  - intros j Hj. simpl.
    destruct (lookup_lt_is_Some_2 rhs j Hj) as [c Hc].
    exists c. split; [|split; [exact Hc|]].
    + rewrite <- Htext in Hc. unfold toStringView in Hc.
      by apply lookup_take_Some in Hc as [Hc _].
    + intros ->. apply Hnot. eapply list_elem_of_lookup_2; eauto.
Qed.

Lemma eq_array_unterminated_short_witness :
  eq_array 8 [x61; x62; x63; x64; x00; x00; x00; x00] [x61; x62; x63; x64]
  = None.
Proof.
  apply (eq_array_unterminated_short 8
           [x61; x62; x63; x64; x00; x00; x00; x00] [x61; x62; x63; x64]).
  - reflexivity.
  - intros Hin. repeat (apply elem_of_cons in Hin as [Hin|Hin];
                        [discriminate|]).
    by apply not_elem_of_nil in Hin.
  - simpl. lia.
  - reflexivity.
Defined.

(** ** The 4-byte tag as an integer *)

Lemma le_value_bound (bs : list byte) :
  (le_value bs < 256 ^ N.of_nat (length bs))%N.
Proof.
  induction bs as [|b bs IH]; [simpl; lia|].
  cbn [le_value length]. rewrite Nat2N.inj_succ, N.pow_succ_r'.
  pose proof (Byte.to_N_bounded b). lia.
Qed.

Lemma le_digits_le_value (bs : list byte) :
  le_digits (length bs) (le_value bs) = bs.
Proof.
  induction bs as [|b bs IH]; [reflexivity|].
  cbn [le_value length le_digits].
  pose proof (Byte.to_N_bounded b) as Hb.
  replace ((Byte.to_N b + 256 * le_value bs) / 256)%N with (le_value bs).
  - rewrite IH. f_equal. unfold byte_of_N.
    replace ((Byte.to_N b + 256 * le_value bs) mod 256)%N with (Byte.to_N b).
    + by rewrite Byte.of_to_N.
    + apply (N.mod_unique _ 256 (le_value bs)); lia.
  - apply (N.div_unique _ 256 _ (Byte.to_N b)); lia.
Qed.

Lemma uint32_bytes_of_bytes (host : ByteOrder) (bs : list byte) :
  length bs = sizeof_uint32 →
  uint32_bytes host (uint32_of_bytes host bs) = bs.
Proof.
  intros Hlen. destruct host; unfold uint32_bytes, uint32_of_bytes.
  - rewrite <- Hlen. apply le_digits_le_value.
  - rewrite <- Hlen, <- (length_rev bs), le_digits_le_value.
    apply rev_involutive.
Qed.

Lemma toInt_range (host : ByteOrder) (mData : list byte) :
  wf_buffer sizeof_uint32 mData →
  (toInt sizeof_uint32 host mData ≤ UINT32_MAX)%N.
Proof.
  intros Hwf. red in Hwf. unfold toInt. rewrite take_ge by lia.
  assert (Hb : ∀ bs, length bs = sizeof_uint32 → (le_value bs ≤ UINT32_MAX)%N).
  { intros bs Hbs. pose proof (le_value_bound bs) as H. rewrite Hbs in H.
    unfold UINT32_MAX. change (256 ^ N.of_nat sizeof_uint32)%N
      with 4294967296%N in H. lia. }
  destruct host; simpl; apply Hb; rewrite ?length_rev; exact Hwf.
Qed.

Lemma toInt_inj (host : ByteOrder) (a b : list byte) :
  wf_buffer sizeof_uint32 a → wf_buffer sizeof_uint32 b →
  toInt sizeof_uint32 host a = toInt sizeof_uint32 host b → a = b.
Proof.
  unfold wf_buffer, toInt. intros Ha Hb.
  rewrite !take_ge by lia. intros Heq.
  rewrite <- (uint32_bytes_of_bytes host a Ha),
          <- (uint32_bytes_of_bytes host b Hb). by rewrite Heq.
Qed.

(** X9: reading a tag with [toInt] and storing the value back with
    [operator=(uint32_t)] restores the four bytes exactly, on either
    byte order; the value read always fits 32 bits, and two buffers
    with the same value are the same four bytes. *)
Theorem toInt_assign_uint32_roundtrip
    (host : ByteOrder) (mData src other : list byte) :
  wf_buffer sizeof_uint32 mData → wf_buffer sizeof_uint32 src →
  wf_buffer sizeof_uint32 other →
  assign_uint32 sizeof_uint32 host mData (toInt sizeof_uint32 host src) = src
  ∧ (toInt sizeof_uint32 host src ≤ UINT32_MAX)%N
  ∧ (toInt sizeof_uint32 host src = toInt sizeof_uint32 host other →
     src = other).
Proof.
  intros Hwf Hsrc Hother. split; [|split].
  - red in Hwf, Hsrc. unfold assign_uint32, toInt, memcpy.
    rewrite (take_ge src) by lia.
    rewrite uint32_bytes_of_bytes by exact Hsrc.
    rewrite take_ge, drop_ge by lia. apply app_nil_r.
  - by apply toInt_range.
  - by apply toInt_inj.
Qed.

Lemma toInt_assign_uint32_roundtrip_witness :
  assign_uint32 sizeof_uint32 BigEndian [x00; x00; x00; x00]
    (toInt sizeof_uint32 BigEndian [x4e; x50; x43; x5f])
  = [x4e; x50; x43; x5f]
  ∧ (toInt sizeof_uint32 BigEndian [x4e; x50; x43; x5f] ≤ UINT32_MAX)%N
  ∧ (toInt sizeof_uint32 BigEndian [x4e; x50; x43; x5f]
     = toInt sizeof_uint32 BigEndian [x4e; x50; x43; x5f] →
     [x4e; x50; x43; x5f] = [x4e; x50; x43; x5f]).
Proof.
  apply (toInt_assign_uint32_roundtrip BigEndian [x00; x00; x00; x00]
           [x4e; x50; x43; x5f] [x4e; x50; x43; x5f]);
    reflexivity.
Defined.

(** X10: for a 4-byte buffer and a 32-bit value, the integer overload
    of [operator==] is true exactly when the buffer holds the object
    representation of the value, [operator!=] exactly when it does
    not; so a tag just stored with [operator=(uint32_t)] compares
    equal to it. *)
Theorem eq_uint32_exact
    (host : ByteOrder) (mData other : list byte) (value : N) :
  wf_buffer sizeof_uint32 mData → wf_buffer sizeof_uint32 other →
  (value ≤ UINT32_MAX)%N →
  (eq_uint32 sizeof_uint32 host mData value = true
   ↔ mData = uint32_bytes host value)
  ∧ (ne_uint32 sizeof_uint32 host mData value = true
     ↔ mData ≠ uint32_bytes host value)
  ∧ eq_uint32 sizeof_uint32 host
      (assign_uint32 sizeof_uint32 host other value) value = true.
Proof.
  intros Hwf Hother Hval.
  assert (Hstored : toInt sizeof_uint32 host (uint32_bytes host value)
                    = value).
  { unfold toInt. rewrite take_ge by (rewrite length_uint32_bytes; lia).
    rewrite uint32_of_bytes_roundtrip. apply N.mod_small.
    unfold UINT32_MAX in Hval. lia. }
  assert (Heq : eq_uint32 sizeof_uint32 host mData value = true
                ↔ mData = uint32_bytes host value).
  { unfold eq_uint32. rewrite N.eqb_eq. split.
    - intros Hint. rewrite <- Hstored in Hint.
      apply (toInt_inj host); [done | apply length_uint32_bytes | done].
    - intros ->. exact Hstored. }
  split; [exact Heq|]. split.
  - unfold ne_uint32. rewrite negb_true_iff, <- Heq.
    by destruct (eq_uint32 sizeof_uint32 host mData value).
  - unfold eq_uint32. rewrite N.eqb_eq. red in Hother.
    unfold assign_uint32, memcpy.
    rewrite take_ge, drop_ge, app_nil_r
      by (rewrite ?length_uint32_bytes; lia).
    exact Hstored.
Qed.

Lemma eq_uint32_exact_witness :
  (eq_uint32 sizeof_uint32 LittleEndian [x4e; x50; x43; x5f] 0x5f43504e%N
   = true
   ↔ [x4e; x50; x43; x5f] = uint32_bytes LittleEndian 0x5f43504e%N)
  ∧ (ne_uint32 sizeof_uint32 LittleEndian [x4e; x50; x43; x5f] 0x5f43504e%N
     = true
     ↔ [x4e; x50; x43; x5f] ≠ uint32_bytes LittleEndian 0x5f43504e%N)
  ∧ eq_uint32 sizeof_uint32 LittleEndian
      (assign_uint32 sizeof_uint32 LittleEndian [x00; x00; x00; x00]
         0x5f43504e%N) 0x5f43504e%N = true.
Proof.
  apply (eq_uint32_exact LittleEndian [x4e; x50; x43; x5f]
           [x00; x00; x00; x00] 0x5f43504e%N).
  - reflexivity.
  - reflexivity.
  - unfold UINT32_MAX. lia.
Defined.

Lemma le_value_zeros (k : nat) : le_value (replicate k NUL) = 0%N.
Proof. induction k as [|k IH]; [reflexivity|]. simpl in *. rewrite IH. lia. Qed.

Lemma le_value_app_zeros (p : list byte) (k : nat) :
  le_value (p ++ replicate k NUL) = le_value p.
Proof.
  induction p as [|b p IH]; simpl; [apply le_value_zeros|].
  by rewrite IH.
Qed.

(** X11: for capacity 4 and a text stored outside the buffer, [assign]
    overwrites all four bytes: the result is the text cut or
    zero-padded to four bytes, whatever the buffer held before, and on
    a little-endian host its integer value is the little-endian value
    of the first four (or fewer) text bytes. *)
Theorem assign_tag_canonical (mData mData' value : list byte) :
  wf_buffer sizeof_uint32 mData → wf_buffer sizeof_uint32 mData' →
  assign sizeof_uint32 mData value
  = take sizeof_uint32 (value ++ replicate sizeof_uint32 NUL)
  ∧ assign sizeof_uint32 mData value = assign sizeof_uint32 mData' value
  ∧ toInt sizeof_uint32 LittleEndian (assign sizeof_uint32 mData value)
    = le_value (take sizeof_uint32 value).
Proof.
  intros Hwf Hwf'. split; [by apply assign_tag_shape|]. split.
  - by rewrite !assign_tag_shape.
  - rewrite assign_tag_shape by done. unfold toInt. simpl uint32_of_bytes.
    rewrite take_take, Nat.min_id, take_app.
    change [x00; x00; x00; x00] with (replicate 4 NUL).
    rewrite take_replicate. apply le_value_app_zeros.
Qed.

Lemma assign_tag_canonical_witness :
  assign sizeof_uint32 [xff; xff; xff; xff] [x49; x44]
  = take sizeof_uint32 ([x49; x44] ++ replicate sizeof_uint32 NUL)
  ∧ assign sizeof_uint32 [xff; xff; xff; xff] [x49; x44]
    = assign sizeof_uint32 [x00; x01; x02; x03] [x49; x44]
  ∧ toInt sizeof_uint32 LittleEndian
      (assign sizeof_uint32 [xff; xff; xff; xff] [x49; x44])
    = le_value (take sizeof_uint32 [x49; x44]).
Proof.
  apply (assign_tag_canonical [xff; xff; xff; xff] [x00; x01; x02; x03]
           [x49; x44]); reflexivity.
Defined.

(** X12: a cleared buffer holds the empty text: it compares equal to a
    [std::string] exactly when that string is empty up to its first
    zero byte, clearing twice changes nothing, and for capacity 4 the
    cleared tag compares equal to the integer 0 on either byte
    order. *)
Theorem clear_is_empty_text
    (capacity : nat) (host : ByteOrder) (mData rhs : list byte) :
  wf_buffer capacity mData →
  toStringView capacity (clear capacity mData) = []
  ∧ clear capacity (clear capacity mData) = clear capacity mData
  ∧ eq_string capacity (clear capacity mData) rhs
    = Some (bool_decide (c_str_text rhs = []))
  ∧ (capacity = sizeof_uint32 →
     eq_uint32 capacity host (clear capacity mData) 0 = true).
Proof.
  intros Hwf. red in Hwf.
  assert (Hclr : clear capacity mData = replicate capacity NUL).
  { unfold clear. rewrite <- Hwf. apply memset_all. }
  assert (Hview : toStringView capacity (clear capacity mData) = []).
  { rewrite Hclr. unfold toStringView. destruct capacity; reflexivity. }
  split; [exact Hview|]. split; [|split].
  - rewrite Hclr. unfold clear.
    rewrite <- (length_replicate capacity NUL) at 2.
    rewrite memset_all. by rewrite length_replicate.
  - destruct (eq_string_spec capacity (clear capacity mData) rhs)
      as (b & Hb & Hiff).
    { rewrite Hclr. apply length_replicate. }
    rewrite Hb, Hview in *. f_equal. destruct b; symmetry.
    + apply bool_decide_eq_true. symmetry. by apply Hiff.
    + apply bool_decide_eq_false. intros Heq.
      symmetry in Heq. by apply Hiff in Heq.
  - intros ->. rewrite Hclr. unfold eq_uint32.
    by rewrite toInt_zero.
Qed.

Lemma clear_is_empty_text_witness :
  toStringView 4 (clear 4 [x54; x45; x53; x33]) = []
  ∧ clear 4 (clear 4 [x54; x45; x53; x33]) = clear 4 [x54; x45; x53; x33]
  ∧ eq_string 4 (clear 4 [x54; x45; x53; x33]) [x00; x61]
    = Some (bool_decide (c_str_text [x00; x61] = []))
  ∧ (4 = sizeof_uint32 →
     eq_uint32 4 BigEndian (clear 4 [x54; x45; x53; x33]) 0 = true).
Proof.
  apply (clear_is_empty_text 4 BigEndian [x54; x45; x53; x33] [x00; x61]).
  reflexivity.
Defined.

(** X13: a text without zero byte that does not fit is cut by
    [assign], so the buffer no longer compares equal to the
    [std::string] it was assigned from; what it compares equal to is
    the text cut to [capacity - 1] bytes (4 bytes for capacity 4). *)
Theorem assign_truncated_differs
    (capacity : nat) (mData value : list byte) :
  wf_buffer capacity mData → 0 < capacity →
  NUL ∉ value → text_limit capacity < length value →
  eq_string capacity (assign capacity mData value) value = Some false
  ∧ eq_string capacity (assign capacity mData value)
      (take (text_limit capacity) value) = Some true.
Proof.
  intros Hwf Hpos Hnot Hlong.
  assert (Hview : toStringView capacity (assign capacity mData value)
                  = take (text_limit capacity) value).
  { rewrite assign_view by done. by rewrite c_str_text_no_nul. }
  assert (Hwf' : wf_buffer capacity (assign capacity mData value))
    by by apply assign_length.
  split.
  - destruct (eq_string_spec capacity (assign capacity mData value) value
                Hwf') as (b & Hb & Hiff).
    rewrite Hb. f_equal. destruct b; [|reflexivity]. exfalso.
    assert (Heq : take (text_limit capacity) value = c_str_text value)
      by (rewrite <- Hview; by apply Hiff).
    rewrite c_str_text_no_nul in Heq by exact Hnot.
    apply (f_equal length) in Heq. rewrite length_take in Heq. lia.
  - destruct (eq_string_spec capacity (assign capacity mData value)
                (take (text_limit capacity) value) Hwf')
      as (b & Hb & Hiff).
    rewrite Hb. f_equal. apply Hiff. rewrite Hview.
    symmetry. apply c_str_text_no_nul.
    intros Hin. apply Hnot. apply elem_of_take in Hin as (i & Hi & _).
    eapply list_elem_of_lookup_2; eauto.
Qed.

Lemma assign_truncated_differs_witness :
  eq_string 4 (assign 4 [x00; x00; x00; x00] [x53; x43; x50; x54; x32])
    [x53; x43; x50; x54; x32] = Some false
  ∧ eq_string 4 (assign 4 [x00; x00; x00; x00] [x53; x43; x50; x54; x32])
      (take (text_limit 4) [x53; x43; x50; x54; x32]) = Some true.
Proof.
  apply (assign_truncated_differs 4 [x00; x00; x00; x00]
           [x53; x43; x50; x54; x32]).
  - reflexivity.
  - lia.
  - intros Hin. repeat (apply elem_of_cons in Hin as [Hin|Hin];
                        [discriminate|]).
    by apply not_elem_of_nil in Hin.
  - vm_compute. lia.
Defined.

End FixedStringFacts.
